(** * BrowserContext (playwright-core/src/client/browserContext.ts)

    A shallow embedding of the client-side context object: its route chain,
    its binding table, its HAR recorders, its close sequence and its
    [waitForEvent].  Asynchronous methods are state-passing functions over a
    [Store]; every call that leaves the object (a channel call, a local
    utility, a user callback) is recorded in the store, and its outcome is
    given by an environment the section abstracts over. *)

From stdpp Require Import base strings list gmap pretty sorting.
From Stdlib Require Import ZArith Lia.

Set Default Proof Using "Type".


(** ** JavaScript helpers *)

Module Js.

(** [s.endsWith(suffix)] *)
Definition endsWith (s suffix : string) : bool :=
  let n := String.length s in
  let m := String.length suffix in
  Nat.leb m n && String.eqb (String.substring (n - m)%nat m s) suffix.

(** The character U+0022, written without a string escape. *)
Definition dquote : string := String (Ascii.ascii_of_nat 34) "".

(** [arr.indexOf(x)] with identity decided by [same]; [None] is JavaScript's -1. *)
Fixpoint indexOf {A} (same : A → A → bool) (x : A) (arr : list A) : option nat :=
  match arr with
  | [] => None
  | y :: ys => if same x y then Some 0 else S <$> indexOf same x ys
  end.

(** [arr.splice(start, 1)] for a start index produced by [indexOf]:
    a found index deletes that element; -1 counts from the end, so it
    deletes the last element (and nothing from an empty array). *)
Definition splice1 {A} (start : option nat) (arr : list A) : list A :=
  match start with
  | Some i => delete i arr
  | None => removelast arr
  end.

End Js.

(** ** Data *)

(** [URLMatch = string | RegExp | function]; [!==] compares strings by value
    and the other two by object identity. *)
Inductive URLMatch :=
| UrlString (glob : string)
| UrlRegExp (object : nat)
| UrlFunction (object : nat).

#[global] Instance URLMatch_eq_dec : EqDecision URLMatch.
Proof. solve_decision. Defined.

(** A function object passed by the user, known by its identity. *)
Definition RouteHandlerCallback := nat.

(** [network.RouteHandler]: the constructor arguments are read only; the
    object's identity is its allocation number. *)
Record RouteHandler := {
  rh_object : nat;
  rh_baseURL : option string;
  rh_url : URLMatch;
  rh_handler : RouteHandlerCallback;
  rh_times : option nat;
}.

(** A [network.Route]: its identity and the URL of its request. *)
Record Route := { route_object : nat; route_url : string }.

Definition Error := string.

Inductive Result (A : Type) :=
| Ok (a : A)
| Throw (e : Error).
Arguments Ok {A} a.
Arguments Throw {A} e.

Inductive JSValue :=
| VUndefined
| VString (s : string)
| VNumber (z : Z)
| VObject (object : nat).

#[global] Instance JSValue_eq_dec : EqDecision JSValue.
Proof. solve_decision. Defined.

Inductive HarContent := embed | attach | omit.

#[global] Instance HarContent_eq_dec : EqDecision HarContent.
Proof. solve_decision. Defined.

(** The values of [_harRecorders]. *)
Record HarParams := { har_path : string; har_content : option HarContent }.

(** Everything the context asks of its collaborators, in the source's words. *)
Inductive Call :=
| SetNetworkInterceptionEnabled (enabled : bool)
| ExposeBinding (name : string) (needsHandle : bool)
| InnerContinue (route : nat)
| InvokeBinding (function : nat) (args : list JSValue)
| BindingResolve (call : nat) (result : JSValue)
| BindingReject (call : nat) (error : Error)
| OnWillCloseContext
| HarExport (harId : string)
| ArtifactSaveAs (harId : string) (path : string)
| HarUnzip (zipFile harFile : string)
| ArtifactDelete (harId : string)
| ChannelClose
| AwaitClosedPromise.

#[global] Instance Call_eq_dec : EqDecision Call.
Proof. solve_decision. Defined.

(** A user function exposed as a binding: its identity and what it computes
    from the forwarded arguments. *)
Record BindingFunction := {
  bf_object : nat;
  bf_apply : list JSValue → Result JSValue;
}.

(** A [BindingCall] as its initializer describes it. *)
Record BindingCall := {
  bc_object : nat;
  bc_name : string;
  bc_args : list JSValue;
}.

(** One [close()] in flight: the calls it has issued, the calls it has
    still to make, and how it ended once it has. *)
Record Caller := {
  issued : list Call;
  pending : list Call;
  outcome : option (Result unit);
}.

(** One invocation of a route handler, as observed at the moment
    [routeHandler.handle(route)] is entered: the handler, which use of it
    this is, and the live chain at that moment. *)
Record HandleEvent := {
  he_handler : RouteHandler;
  he_use : nat;
  he_live : list RouteHandler;
  he_result : Result bool;
}.

(** The fields of the context the modelled methods touch, and its view of
    the outside.  [_routes] holds the handler objects front first;
    [_harRecorders] is the [Map] in insertion order; [_browserType] tells
    whether a browser type with an [_onWillCloseContext] hook is set;
    [handledCount] is the mutable counter of each handler object, by
    object, shared by every list that holds the object; [next_object]
    numbers the next [new RouteHandler].  [sent] lists the calls issued so
    far (oldest first), [interception] is the server-side flag, and
    [handle_log] the observations of handler invocations. *)
Record Store := {
  _routes : list RouteHandler;
  _bindings : gmap string BindingFunction;
  _harRecorders : list (string * HarParams);
  _browserType : bool;
  _options_baseURL : option string;
  handledCount : gmap nat nat;
  next_object : nat;
  sent : list Call;
  interception : bool;
  handle_log : list HandleEvent;
}.

Definition set_routes (f : list RouteHandler → list RouteHandler) (s : Store) : Store :=
  {| _routes := f (_routes s); _bindings := _bindings s;
     _harRecorders := _harRecorders s; _browserType := _browserType s;
     _options_baseURL := _options_baseURL s; handledCount := handledCount s;
     next_object := next_object s; sent := sent s;
     interception := interception s; handle_log := handle_log s |}.

Definition set_bindings (f : gmap string BindingFunction → gmap string BindingFunction)
    (s : Store) : Store :=
  {| _routes := _routes s; _bindings := f (_bindings s);
     _harRecorders := _harRecorders s; _browserType := _browserType s;
     _options_baseURL := _options_baseURL s; handledCount := handledCount s;
     next_object := next_object s; sent := sent s;
     interception := interception s; handle_log := handle_log s |}.

Definition set_handledCount (f : gmap nat nat → gmap nat nat) (s : Store) : Store :=
  {| _routes := _routes s; _bindings := _bindings s;
     _harRecorders := _harRecorders s; _browserType := _browserType s;
     _options_baseURL := _options_baseURL s; handledCount := f (handledCount s);
     next_object := next_object s; sent := sent s;
     interception := interception s; handle_log := handle_log s |}.

Definition set_next_object (n : nat) (s : Store) : Store :=
  {| _routes := _routes s; _bindings := _bindings s;
     _harRecorders := _harRecorders s; _browserType := _browserType s;
     _options_baseURL := _options_baseURL s; handledCount := handledCount s;
     next_object := n; sent := sent s;
     interception := interception s; handle_log := handle_log s |}.

Definition record_call (c : Call) (s : Store) : Store :=
  {| _routes := _routes s; _bindings := _bindings s;
     _harRecorders := _harRecorders s; _browserType := _browserType s;
     _options_baseURL := _options_baseURL s; handledCount := handledCount s;
     next_object := next_object s; sent := sent s ++ [c];
     interception := interception s; handle_log := handle_log s |}.

Definition set_interception (b : bool) (s : Store) : Store :=
  {| _routes := _routes s; _bindings := _bindings s;
     _harRecorders := _harRecorders s; _browserType := _browserType s;
     _options_baseURL := _options_baseURL s; handledCount := handledCount s;
     next_object := next_object s; sent := sent s;
     interception := b; handle_log := handle_log s |}.

Definition record_handle (ev : HandleEvent) (s : Store) : Store :=
  {| _routes := _routes s; _bindings := _bindings s;
     _harRecorders := _harRecorders s; _browserType := _browserType s;
     _options_baseURL := _options_baseURL s; handledCount := handledCount s;
     next_object := next_object s; sent := sent s;
     interception := interception s; handle_log := handle_log s ++ [ev] |}.

(** A freshly constructed context: no routes, no bindings, interception off. *)
Definition new_context (browserType : bool) (baseURL : option string)
    (recordHar : option HarParams) : Store :=
  {| _routes := []; _bindings := ∅;
     _harRecorders := match recordHar with Some p => [("", p)] | None => [] end;
     _browserType := browserType; _options_baseURL := baseURL;
     handledCount := ∅; next_object := 0; sent := [];
     interception := false; handle_log := [] |}.

(** ** The monad of asynchronous methods *)

Definition M (A : Type) := Store → Result A * Store.

Definition ret {A} (a : A) : M A := λ s, (Ok a, s).

Definition bind {A B} (m : M A) (k : A → M B) : M B :=
  λ s, match m s with
       | (Ok a, s') => k a s'
       | (Throw e, s') => (Throw e, s')
       end.

Definition throw {A} (e : Error) : M A := λ s, (Throw e, s).

(** [try { m } catch (e) { h(e) }] *)
Definition try_catch {A} (m : M A) (h : Error → M A) : M A :=
  λ s, match m s with
       | (Ok a, s') => (Ok a, s')
       | (Throw e, s') => h e s'
       end.

(** [m.catch(() => {})] on a promise nobody awaits. *)
Definition swallow (m : M unit) : M unit := try_catch m (λ _, ret tt).

#[global] Instance M_ret : MRet M := @ret.
#[global] Instance M_bind : MBind M := λ A B k m, bind m k.

Definition gets {A} (f : Store → A) : M A := λ s, (Ok (f s), s).

Definition modify (f : Store → Store) : M unit := λ s, (Ok tt, f s).

(** [if (b) m] *)
Definition when (b : bool) (m : M unit) : M unit := if b then m else ret tt.

Ltac munfold :=
  unfold mbind, M_bind, mret, M_ret, bind, ret, throw, gets, modify, when in *.

(** ** The route chain *)

(** The test of [unroute]'s filter:
    [route.url !== url || (handler && route.handler !== handler)]. *)
Definition survives (url : URLMatch) (handler : option RouteHandlerCallback)
    (r : RouteHandler) : Prop :=
  rh_url r ≠ url ∨
  match handler with Some h => rh_handler r ≠ h | None => False end.

#[global] Instance survives_dec url handler r : Decision (survives url handler r).
Proof. unfold survives. destruct handler; apply _. Defined.

(** Object identity of two handlers, as [indexOf] decides it. *)
Definition same_object (a b : RouteHandler) : bool :=
  bool_decide (rh_object a = rh_object b).

(** The calls of the public API that change the chain. *)
Inductive ChainCall :=
| CallRoute (url : URLMatch) (handler : RouteHandlerCallback) (times : option nat)
| CallUnroute (url : URLMatch) (handler : option RouteHandlerCallback).

(** What may happen to the context while [_onRoute] is suspended on a
    handler: the chain's public calls, and the two writes of another
    in-flight [_onRoute] (its splice of an expiring entry, and the use it
    counts on a handler). *)
Inductive ChainAction :=
| ACall (c : ChainCall)
| ASplice (rh : RouteHandler)
| AUse (rh : RouteHandler).

Section Context.

(** [urlMatches(baseURL, requestURL, url)] of the network module. *)
Variable urlMatches : option string → string → URLMatch → bool.

(** The collaborators' answer to a call, given the calls issued before it:
    [None] fulfils it, [Some e] rejects it with [e]. *)
Variable reply : list Call → Call → option Error.

(** [isSafeCloseError] of common/errors. *)
Variable isSafeCloseError : Error → bool.

(** What happens while a handler is awaited: the actions taken on the
    context by the user callback and by whatever else runs meanwhile, and
    the handler's decision ([Ok true]: it acted on the route; [Ok false]:
    it fell through; [Throw]: it threw). *)
Variable during_handle : RouteHandler → Route → Store → list ChainAction * Result bool.

(** What the server does with a call it accepts. *)
Definition server_effect (c : Call) (s : Store) : Store :=
  match c with
  | SetNetworkInterceptionEnabled b => set_interception b s
  | _ => s
  end.

(** [await collaborator.method(params)] *)
Definition call (c : Call) : M unit :=
  λ s, match reply (sent s) c with
       | None => (Ok tt, server_effect c (record_call c s))
       | Some e => (Throw e, record_call c s)
       end.

Definition _disableInterception : M unit :=
  call (SetNetworkInterceptionEnabled false).

Definition route (url : URLMatch) (handler : RouteHandlerCallback)
    (times : option nat) : M unit :=
  λ s,
    let rh := {| rh_object := next_object s; rh_baseURL := _options_baseURL s;
                 rh_url := url; rh_handler := handler; rh_times := times |} in
    let s1 := set_routes (cons rh) (set_next_object (S (next_object s)) s) in
    if decide (length (_routes s1) = 1)
    then call (SetNetworkInterceptionEnabled true) s1
    else (Ok tt, s1).

Definition unroute (url : URLMatch) (handler : option RouteHandlerCallback) : M unit :=
  λ s,
    let s1 := set_routes (filter (survives url handler)) s in
    if decide (length (_routes s1) = 0)
    then _disableInterception s1
    else (Ok tt, s1).

Definition run_call (c : ChainCall) : M unit :=
  match c with
  | CallRoute url handler times => route url handler times
  | CallUnroute url handler => unroute url handler
  end.

(** A program that awaits each call before it makes the next. *)
Fixpoint run_calls (cs : list ChainCall) : M unit :=
  match cs with
  | [] => mret tt
  | c :: cs' => run_call c;; run_calls cs'
  end.

(** *** Dispatch of a route event *)

Definition matches (rh : RouteHandler) (requestURL : string) : bool :=
  urlMatches (rh_baseURL rh) requestURL (rh_url rh).

(** The number of times a handler object has been used so far. *)
Definition uses (s : Store) (rh : RouteHandler) : nat :=
  default 0 (handledCount s !! rh_object rh).

(** Modelled from the spec: the handler's remaining-invocation counter
    (network.ts is not among the sources).  A handler is unlimited or
    limited to [N] uses; its remaining count after [use] uses is [N - use],
    and a use is the expiring one when it brings that count to zero. *)
Definition expires_on (rh : RouteHandler) (use : nat) : bool :=
  match rh_times rh with
  | Some n => bool_decide (n ≤ use)%nat
  | None => false
  end.

(** Modelled from the spec: [RouteHandler.willExpire], the expiry flag
    ("its remaining-count reaches zero after this use"). *)
Definition willExpire (rh : RouteHandler) (s : Store) : bool :=
  expires_on rh (S (uses s rh)).

Definition count_use (rh : RouteHandler) (s : Store) : Store :=
  set_handledCount (<[rh_object rh := S (uses s rh)]>) s.

(** [this._routes.splice(this._routes.indexOf(routeHandler), 1)] *)
Definition splice_handler (rh : RouteHandler) (s : Store) : Store :=
  set_routes (λ rs, Js.splice1 (Js.indexOf same_object rh rs) rs) s.

Definition apply_action (s : Store) (a : ChainAction) : Store :=
  match a with
  | ACall c => (run_call c s).2
  | ASplice rh => splice_handler rh s
  | AUse rh => count_use rh s
  end.

(** Modelled from the spec: [RouteHandler.handle] (network.ts is not among
    the sources): the use is counted, the handler is invoked and its
    decision awaited.  The invocation is observed on entry. *)
Definition handle (rh : RouteHandler) (route : Route) : M bool :=
  λ s,
    let s1 := count_use rh s in
    let '(actions, decision) := during_handle rh route s1 in
    let ev := {| he_handler := rh; he_use := uses s1 rh;
                 he_live := _routes s1; he_result := decision |} in
    (decision, foldl apply_action (record_handle ev s1) actions).

(** The loop of [_onRoute] over the copy [this._routes.slice()]. *)
Fixpoint dispatch (route : Route) (routeHandlers : list RouteHandler) : M unit :=
  match routeHandlers with
  | [] => call (InnerContinue (route_object route))
  | routeHandler :: rest =>
      if negb (matches routeHandler (route_url route)) then dispatch route rest
      else
        expiring ← gets (willExpire routeHandler);
        when expiring (modify (splice_handler routeHandler));;
        handled ← handle routeHandler route;
        n ← gets (λ s, length (_routes s));
        when (bool_decide (n = 0)) (swallow _disableInterception);;
        if (handled : bool) then mret tt else dispatch route rest
  end.

Definition _onRoute (route : Route) : M unit :=
  routeHandlers ← gets _routes;
  dispatch route routeHandlers.

(** The context after the handler has answered:
    [if (!this._routes.length) this._disableInterception().catch(...)]. *)
Definition after_handle (s : Store) : Store :=
  if bool_decide (length (_routes s) = 0)
  then (call (SetNetworkInterceptionEnabled false) s).2
  else s.

(** *** Bindings *)

(** The response a call gets from a function: its return value, or the
    error it threw. *)
Definition response (bc : BindingCall) (func : BindingFunction) : Call :=
  match bf_apply func (bc_args bc) with
  | Ok result => BindingResolve (bc_object bc) result
  | Throw e => BindingReject (bc_object bc) e
  end.

(** Modelled from the spec: [BindingCall.call] (page.ts is not among the
    sources): the callback is invoked with the forwarded arguments, and its
    return value or thrown error is reported through the call's own
    response; a failure to deliver the response is dropped. *)
Definition BindingCall_call (bc : BindingCall) (func : BindingFunction) : M unit :=
  modify (record_call (InvokeBinding (bf_object func) (bc_args bc)));;
  match bf_apply func (bc_args bc) with
  | Ok result => swallow (call (BindingResolve (bc_object bc) result))
  | Throw e => swallow (call (BindingReject (bc_object bc) e))
  end.

Definition _onBinding (bindingCall : BindingCall) : M unit :=
  func ← gets (λ s, _bindings s !! bc_name bindingCall);
  match func with
  | None => mret tt
  | Some f => BindingCall_call bindingCall f
  end.

Definition exposeBinding (name : string) (callback : BindingFunction)
    (handle : bool) : M unit :=
  call (ExposeBinding name handle);;
  modify (set_bindings (<[name := callback]>)).

(** *** Close *)

Definition isCompressed (harParams : HarParams) : bool :=
  bool_decide (har_content harParams = Some attach)
  || Js.endsWith (har_path harParams) ".zip".

Definition needCompressed (harParams : HarParams) : bool :=
  Js.endsWith (har_path harParams) ".zip".

(** The body of the loop over [this._harRecorders]. *)
Definition drain (recorder : string * HarParams) : M unit :=
  let '(harId, harParams) := recorder in
  call (HarExport harId);;
  (if isCompressed harParams && negb (needCompressed harParams)
   then call (ArtifactSaveAs harId (har_path harParams +:+ ".tmp"));;
        call (HarUnzip (har_path harParams +:+ ".tmp") (har_path harParams))
   else call (ArtifactSaveAs harId (har_path harParams)));;
  call (ArtifactDelete harId).

Fixpoint for_of {A} (xs : list A) (body : A → M unit) : M unit :=
  match xs with
  | [] => mret tt
  | x :: xs' => body x;; for_of xs' body
  end.

Definition close : M unit :=
  try_catch
    (hook ← gets _browserType;
     when hook (call OnWillCloseContext);;
     recorders ← gets _harRecorders;
     for_of recorders drain;;
     call ChannelClose;;
     call AwaitClosedPromise)
    (λ e, if isSafeCloseError e then mret tt else throw e).

(** The calls one [close()] makes when none of them is rejected, one per
    [await]. *)
Definition har_steps (recorder : string * HarParams) : list Call :=
  let '(harId, harParams) := recorder in
  HarExport harId ::
  (if isCompressed harParams && negb (needCompressed harParams)
   then [ArtifactSaveAs harId (har_path harParams +:+ ".tmp");
         HarUnzip (har_path harParams +:+ ".tmp") (har_path harParams)]
   else [ArtifactSaveAs harId (har_path harParams)]) ++
  [ArtifactDelete harId].

Definition teardown (s : Store) : list Call :=
  (if _browserType s then [OnWillCloseContext] else []) ++
  flat_map har_steps (_harRecorders s) ++
  [ChannelClose; AwaitClosedPromise].

(** What [close] does with the error it catches. *)
Definition on_close_error (e : Error) : M unit :=
  if isSafeCloseError e then mret tt else throw e.

(** The calls [close] makes before it turns to the recorders after [pre]. *)
Definition drained (s : Store) (pre : list (string * HarParams)) : list Call :=
  (if _browserType s then [OnWillCloseContext] else []) ++ flat_map har_steps pre.

(** Every call of [cs], made in order from [s], is fulfilled. *)
Definition accepted (s : Store) (cs : list Call) : Prop :=
  ∀ done c rest, cs = done ++ c :: rest → reply (sent s ++ done) c = None.

(** The calls of a list, each awaited before the next is made. *)
Fixpoint perform (cs : list Call) : M unit :=
  match cs with
  | [] => mret tt
  | c :: cs' => call c;; perform cs'
  end.

(** *** Several [close()] calls in flight

    Each call of [close()] is a caller of its own: it runs from one [await]
    to the next when the scheduler gives it a turn.  A caller remembers the
    calls it issued itself. *)

Definition start_close (s : Store) : Caller :=
  {| issued := []; pending := teardown s; outcome := None |}.

Definition turn (st : list Caller * Store) (i : nat) : list Caller * Store :=
  let '(pool, s) := st in
  match pool !! i with
  | Some {| issued := done; pending := c :: rest; outcome := None |} =>
      match call c s with
      | (Ok _, s') =>
          (<[i := {| issued := done ++ [c]; pending := rest;
                     outcome := match rest with [] => Some (Ok tt) | _ => None end |}]> pool, s')
      | (Throw e, s') =>
          (<[i := {| issued := done ++ [c]; pending := [];
                     outcome := Some (if isSafeCloseError e then Ok tt else Throw e) |}]> pool, s')
      end
  | _ => st
  end.

(** [n] calls of [close()] made before any of them resumes, then run in
    the order of [schedule]. *)
Definition close_concurrently (n : nat) (schedule : list nat) (s : Store)
    : list Caller * Store :=
  foldl turn (replicate n (start_close s), s) schedule.

(** How often a call occurs in a list of calls. *)
Definition times_called (c : Call) (cs : list Call) : nat :=
  count_occ Call_eq_dec cs c.

(** How often the callers of a pool have issued a call, all together. *)
Definition issued_by_all (c : Call) (pool : list Caller) : nat :=
  sum_list ((λ caller, times_called c (issued caller)) <$> pool).

Definition finished (caller : Caller) : Prop := outcome caller ≠ None.

(** What holds of a caller at any time, whatever the collaborators answer:
    it has issued an initial part of the teardown of the context. *)
Definition on_track (s0 : Store) (caller : Caller) : Prop :=
  issued caller `prefix_of` teardown s0 ∧
  (outcome caller = None → issued caller ++ pending caller = teardown s0).

(** What holds of a caller when no call is ever rejected. *)
Definition unhindered (s0 : Store) (caller : Caller) : Prop :=
  issued caller ++ pending caller = teardown s0 ∧
  (outcome caller = None ∨ outcome caller = Some (Ok tt) ∧ pending caller = []).

Definition pool_inv (s0 : Store) (n : nat) (st : list Caller * Store) : Prop :=
  length st.1 = n ∧
  Forall (on_track s0) st.1 ∧
  (∀ c, times_called c (sent st.2) =
        times_called c (sent s0) + issued_by_all c st.1) ∧
  ((∀ h c, reply h c = None) → Forall (unhindered s0) st.1).

End Context.

(** Entries nearer the front were added later. *)
Definition lifo (chain : list RouteHandler) : Prop :=
  StronglySorted (λ a b, rh_object b < rh_object a) chain.

Definition chain_inv (s : Store) : Prop :=
  lifo (_routes s) ∧
  Forall (λ r, rh_object r < next_object s) (_routes s) ∧
  (interception s = true ↔ _routes s ≠ []).

(** The objects of the chain are distinct and were allocated by [route]. *)
Definition chain_wf (s : Store) : Prop :=
  lifo (_routes s) ∧ Forall (λ r, rh_object r < next_object s) (_routes s).


(** ** Files written by the drain

    What the calls of a drain leave on disk.  [exported harId] is the form
    of the artifact the server exported for that recording. *)

Inductive FileForm := ZipArchive | PlainHar.

#[global] Instance FileForm_eq_dec : EqDecision FileForm.
Proof. solve_decision. Defined.

Section Files.

Variable exported : string → FileForm.

(** Whether [harUnzip] leaves the archive it unzipped in place; its code is
    not among the sources, so nothing below depends on the answer. *)
Variable keeps_zipFile : bool.

(** [artifact.saveAs(path)] writes the artifact as it was exported;
    [harUnzip({ zipFile, harFile })] of the local utilities leaves the
    unzipped HAR at [harFile]. *)
Definition write (fs : gmap string FileForm) (c : Call) : gmap string FileForm :=
  match c with
  | ArtifactSaveAs harId path => <[path := exported harId]> fs
  | HarUnzip zipFile harFile =>
      <[harFile := PlainHar]> (if keeps_zipFile then fs else delete zipFile fs)
  | _ => fs
  end.

Definition files_after (calls : list Call) (fs : gmap string FileForm)
    : gmap string FileForm :=
  foldl write fs calls.

End Files.

(** The source's comment on the export: "Server side will compress artifact
    if content is attach or if file is .zip." *)
Definition server_form (harParams : HarParams) : FileForm :=
  if isCompressed harParams then ZipArchive else PlainHar.

(** ** The waiter *)

Module Waiter.

(** The Waiter (waiter.ts) is not among the sources; the context uses its
    [createForEvent], [rejectOnTimeout], [rejectOnEvent], [waitForEvent] and
    [dispose].  This module models it from the spec. *)

(** Modelled from the spec: the two ways a wait fails, [TimeoutError] when
    the deadline elapses and [AbortedError] when the abort event fires
    first, with the abort reason. *)
Inductive WaitError :=
| TimeoutError (message : string)
| AbortedError (reason : Error).

(** Modelled from the spec: a wait settles with the payload of the first
    matching event, or fails. *)
Inductive Settlement :=
| Resolved (payload : JSValue)
| Rejected (e : WaitError).

(** Modelled from the spec: the three signals a waiter races: a deadline,
    an explicitly registered abort event, and the delivery of the awaited
    event where the predicate holds or is absent. *)
Inductive Source :=
| Deadline (timeout : Z) (message : string)
| AbortOn (event : string) (error : Error)
| MatchOn (event : string) (predicate : option (JSValue → bool)).

(** What the waiter is told: an event was emitted on the node, or the clock
    reads [ms] milliseconds since the waiter was armed. *)
Inductive Occurrence :=
| Emitted (event : string) (payload : JSValue)
| Elapsed (ms : Z).

(** Modelled from the spec: a waiter is the signals registered on it, in
    registration order, its settlement once it has one (it settles once),
    and whether it was disposed. *)
Record t := {
  sources : list Source;
  settled : option Settlement;
  disposed : bool;
}.

Definition createForEvent : t :=
  {| sources := []; settled := None; disposed := false |}.

(** Modelled from the spec: each registering call adds its listener when
    it is made, after those registered before. *)
Definition register (src : Source) (w : t) : t :=
  {| sources := sources w ++ [src]; settled := settled w; disposed := disposed w |}.

(** A timeout of 0 is no timeout: the command line sets the default timeout
    of the context to 0 when none is asked for ("no timeout by default").
    No timer is armed for it. *)
Definition armed (timeout : Z) : bool := negb (timeout =? 0)%Z.

(** Modelled from the spec: the deadline takes its place in the
    registration order; its timer runs only when the timeout is [armed]. *)
Definition rejectOnTimeout (timeout : Z) (message : string) : t → t :=
  register (Deadline timeout message).

Definition rejectOnEvent (event : string) (error : Error) : t → t :=
  register (AbortOn event error).

Definition waitForEvent (event : string) (predicate : option (JSValue → bool)) : t → t :=
  register (MatchOn event predicate).

(** Modelled from the spec: [dispose] force-unregisters; a disposed waiter
    that has not settled never settles. *)
Definition dispose (w : t) : t :=
  {| sources := []; settled := settled w; disposed := true |}.

Definition qualifies (predicate : option (JSValue → bool)) (payload : JSValue) : bool :=
  match predicate with
  | Some p => p payload
  | None => true
  end.

(** Modelled from the spec: when a signal fires, and what it settles the
    wait with.  A deadline fires once its time has elapsed, if its timer
    was armed. *)
Definition fires (o : Occurrence) (src : Source) : option Settlement :=
  match src, o with
  | Deadline timeout message, Elapsed ms =>
      if armed timeout && bool_decide (timeout ≤ ms)%Z
      then Some (Rejected (TimeoutError message)) else None
  | AbortOn event error, Emitted name _ =>
      if bool_decide (name = event) then Some (Rejected (AbortedError error)) else None
  | MatchOn event predicate, Emitted name payload =>
      if bool_decide (name = event) && qualifies predicate payload
      then Some (Resolved payload) else None
  | _, _ => None
  end.

(** Modelled from the spec: the listeners of one occurrence run in
    registration order, and the first signal to fire wins. *)
Fixpoint first_to_fire (o : Occurrence) (srcs : list Source) : option Settlement :=
  match srcs with
  | [] => None
  | src :: rest =>
      match fires o src with
      | Some r => Some r
      | None => first_to_fire o rest
      end
  end.

(** Modelled from the spec: on settlement the waiter unregisters from all
    its sources; a settled or disposed waiter ignores what occurs. *)
Definition deliver (w : t) (o : Occurrence) : t :=
  if disposed w then w
  else match settled w with
       | Some _ => w
       | None =>
           match first_to_fire o (sources w) with
           | Some r => {| sources := []; settled := Some r; disposed := false |}
           | None => w
           end
       end.

Definition run (w : t) (os : list Occurrence) : t := foldl deliver w os.

Definition is_abort (src : Source) : bool :=
  match src with AbortOn _ _ => true | _ => false end.

Definition is_match (src : Source) : bool :=
  match src with MatchOn _ _ => true | _ => false end.

(** The place of the first source of a kind in the registration order. *)
Definition registered_at (kind : Source → bool) (w : t) : option nat :=
  fst <$> list_find (λ src, kind src = true) (sources w).

End Waiter.

(** ** [waitForEvent] *)

(** [Events.BrowserContext.Close] *)
Definition Events_BrowserContext_Close : string := "close".

(** The message of the timeout, as [waitForEvent] composes it. *)
Definition timeout_message (event : string) (timeout : Z) : string :=
  "Timeout " +:+ pretty timeout +:+ "ms exceeded while waiting for event "
  +:+ Js.dquote +:+ event +:+ Js.dquote.

(** The waiter [waitForEvent] sets up, before it awaits it.  [timeout] is
    what [this._timeoutSettings.timeout(...)] returned. *)
Definition waitForEvent_waiter (event : string) (timeout : Z)
    (predicate : option (JSValue → bool)) : Waiter.t :=
  let waiter := Waiter.createForEvent in
  let waiter :=
    Waiter.rejectOnTimeout timeout (timeout_message event timeout) waiter in
  let waiter :=
    if bool_decide (event ≠ Events_BrowserContext_Close)
    then Waiter.rejectOnEvent Events_BrowserContext_Close "Context closed" waiter
    else waiter in
  Waiter.waitForEvent event predicate waiter.

(** How [waitForEvent] ends when the context then sees [occurrences]:
    [None] while it is still pending. *)
Definition waitForEvent (event : string) (timeout : Z)
    (predicate : option (JSValue → bool)) (occurrences : list Waiter.Occurrence)
    : option Waiter.Settlement :=
  Waiter.settled (Waiter.run (waitForEvent_waiter event timeout predicate) occurrences).


(** ** More of the context *)

Module JsMap.

(** [map.set(key, value)] on a [Map] kept in insertion order: a key that is
    present keeps its place and takes the new value, a new key goes last. *)
Fixpoint set {V} (key : string) (value : V) (m : list (string * V)) : list (string * V) :=
  match m with
  | [] => [(key, value)]
  | (k, v) :: rest =>
      if decide (k = key) then (key, value) :: rest
      else (k, v) :: set key value rest
  end.

(** [map.get(key)] *)
Fixpoint get {V} (key : string) (m : list (string * V)) : option V :=
  match m with
  | [] => None
  | (k, v) :: rest => if decide (k = key) then Some v else get key rest
  end.

End JsMap.

(** [s.startsWith(prefix)] *)
Definition startsWith (s prefix : string) : bool := String.prefix prefix s.

(** JavaScript's truth value of a string: only the empty string is falsy. *)
Definition truthy (s : string) : bool := negb (String.eqb s "").

(** Truth value of a string that may be [undefined]. *)
Definition given (s : option string) : bool :=
  match s with
  | Some s => truthy s
  | None => false
  end.

Definition set_harRecorders
    (f : list (string * HarParams) → list (string * HarParams)) (s : Store) : Store :=
  {| _routes := _routes s; _bindings := _bindings s;
     _harRecorders := f (_harRecorders s); _browserType := _browserType s;
     _options_baseURL := _options_baseURL s; handledCount := handledCount s;
     next_object := next_object s; sent := sent s;
     interception := interception s; handle_log := handle_log s |}.

Definition set_browserType (b : bool) (s : Store) : Store :=
  {| _routes := _routes s; _bindings := _bindings s;
     _harRecorders := _harRecorders s; _browserType := b;
     _options_baseURL := _options_baseURL s; handledCount := handledCount s;
     next_object := next_object s; sent := sent s;
     interception := interception s; handle_log := handle_log s |}.

(** [_setBrowserType]: [hook] tells whether the browser type has an
    [_onWillCloseContext]; [recordHar] is [this._options.recordHar]. *)
Definition _setBrowserType (hook : bool) (recordHar : option HarParams) (s : Store) : Store :=
  let s1 := set_browserType hook s in
  match recordHar with
  | Some p =>
      set_harRecorders
        (JsMap.set "" {| har_path := har_path p; har_content := har_content p |}) s1
  | None => s1
  end.

(** [_recordIntoHAR(har, page, options)]: [harStart] is what the channel
    answered to [harStart]: the id of the recording, or the error of the
    rejected request.  The request itself is not entered in [sent]. *)
Definition _recordIntoHAR (har : string) (harStart : Result string) : M unit :=
  match harStart with
  | Throw e => throw e
  | Ok harId =>
      modify (set_harRecorders
                (JsMap.set harId {| har_path := har; har_content := Some attach |}))
  end.

(** [routeFromHAR(har, options)]: with [options.update] it records and
    returns; otherwise it hands the context to a [HarRouter] (whose code is
    not among the sources: [addContextRoute] is what that does to it). *)
Definition routeFromHAR (har : string) (update : bool) (harStart : Result string)
    (addContextRoute : M unit) : M unit :=
  if update then _recordIntoHAR har harStart else addContextRoute.

(** *** [cookies] *)

(** The argument of [cookies]: [undefined], a string, or an array. *)
Inductive CookieUrls :=
| UrlsUndefined
| UrlsString (url : string)
| UrlsArray (urls : list string).

Definition urls_truthy (urls : CookieUrls) : bool :=
  match urls with
  | UrlsUndefined => false
  | UrlsString url => truthy url
  | UrlsArray _ => true
  end.

Definition urls_is_string (urls : CookieUrls) : bool :=
  match urls with UrlsString _ => true | _ => false end.

(** The [urls] that [cookies] puts in its request. *)
Definition cookies_urls (urls : CookieUrls) : CookieUrls :=
  let urls := if negb (urls_truthy urls) then UrlsArray [] else urls in
  if urls_truthy urls && urls_is_string urls
  then match urls with UrlsString url => UrlsArray [url] | _ => urls end
  else urls.

(** *** Preparing the parameters of a new context *)

(** [options.urlFilter]: a glob, or a regular expression with its source
    and flags. *)
Inductive UrlFilter :=
| FilterString (glob : string)
| FilterRegExp (source flags : string).

Definition isString (f : option UrlFilter) : bool :=
  match f with Some (FilterString _) => true | _ => false end.

Definition isRegExp (f : option UrlFilter) : bool :=
  match f with Some (FilterRegExp _ _) => true | _ => false end.

(** [BrowserContextOptions['recordHar']] *)
Record RecordHar := {
  rec_path : string;
  rec_content : option HarContent;
  rec_omitContent : option bool;
  rec_urlFilter : option UrlFilter;
  rec_mode : option string;
}.

(** [channels.RecordHarOptions] *)
Record RecordHarOptions := {
  rho_path : string;
  rho_content : option HarContent;
  rho_urlGlob : option string;
  rho_urlRegexSource : option string;
  rho_urlRegexFlags : option string;
  rho_mode : option string;
}.

Definition prepareRecordHarOptions (options : option RecordHar) : option RecordHarOptions :=
  match options with
  | None => None
  | Some options =>
      Some {|
        rho_path := rec_path options;
        rho_content :=
          match rec_content options with
          | Some c => Some c
          | None => if default false (rec_omitContent options) then Some omit else None
          end;
        rho_urlGlob :=
          if isString (rec_urlFilter options)
          then match rec_urlFilter options with Some (FilterString g) => Some g | _ => None end
          else None;
        rho_urlRegexSource :=
          if isRegExp (rec_urlFilter options)
          then match rec_urlFilter options with Some (FilterRegExp src _) => Some src | _ => None end
          else None;
        rho_urlRegexFlags :=
          if isRegExp (rec_urlFilter options)
          then match rec_urlFilter options with Some (FilterRegExp _ fl) => Some fl | _ => None end
          else None;
        rho_mode := rec_mode options
      |}
  end.

(** A value that may be [undefined], [null] or set. *)
Inductive Nullable (A : Type) :=
| Undefined
| Null
| Value (a : A).
Arguments Undefined {A}.
Arguments Null {A}.
Arguments Value {A} a.

Record Size := { width : Z; height : Z }.

Record RecordVideo := { rv_dir : string; rv_size : option Size }.

(** [options.storageState]: a path to read, or the state itself. *)
Inductive StorageStateOption :=
| StateFile (path : string)
| StateObject (state : JSValue).

(** The fields of [BrowserContextOptions] that [prepareBrowserContextParams]
    reads. *)
Record BrowserContextOptions := {
  opt_videoSize : option Size;
  opt_videosPath : option string;
  opt_recordVideo : option RecordVideo;
  opt_extraHTTPHeaders : option (list (string * string));
  opt_viewport : Nullable Size;
  opt_storageState : option StorageStateOption;
  opt_serviceWorkers : option string;
  opt_recordHar : option RecordHar;
  opt_colorScheme : Nullable string;
  opt_reducedMotion : Nullable string;
  opt_forcedColors : Nullable string;
}.

(** [channels.BrowserNewContextParams]: the options spread into it, and the
    fields written after the spread. *)
Record BrowserNewContextParams := {
  par_options : BrowserContextOptions;
  par_viewport : option Size;
  par_noDefaultViewport : bool;
  par_extraHTTPHeaders : option (list (string * string));
  par_storageState : option JSValue;
  par_serviceWorkers : option string;
  par_recordHar : option RecordHarOptions;
  par_colorScheme : option string;
  par_reducedMotion : option string;
  par_forcedColors : option string;
  par_recordVideo : option RecordVideo;
}.

(** [x === null ? 'no-override' : x] *)
Definition no_override (x : Nullable string) : option string :=
  match x with
  | Null => Some "no-override"
  | Undefined => None
  | Value v => Some v
  end.

Definition newline : string := String (Ascii.ascii_of_nat 10) "".

Definition videoSize_error : Error :=
  Js.dquote +:+ "videoSize" +:+ Js.dquote +:+ " option requires " +:+
  Js.dquote +:+ "videosPath" +:+ Js.dquote +:+ " to be specified".

Section Prepare.

(** [network.validateHeaders]: the error it throws, if any. *)
Variable validateHeaders : list (string * string) → option Error.

(** [headersObjectToArray] of the utilities. *)
Variable headersObjectToArray : list (string * string) → list (string * string).

(** [JSON.parse(await fs.promises.readFile(path, 'utf8'))]: the state read,
    or the message of the error thrown. *)
Variable readState : string → Result JSValue.

Definition prepareStorageState (options : BrowserContextOptions) : Result (option JSValue) :=
  match opt_storageState options with
  | None => Ok None
  | Some (StateObject state) => Ok (Some state)
  | Some (StateFile path) =>
      match readState path with
      | Ok state => Ok (Some state)
      | Throw message =>
          Throw ("Error reading storage state from " +:+ path +:+ ":" +:+ newline +:+ message)
      end
  end.

Definition prepareBrowserContextParams (options : BrowserContextOptions)
    : Result BrowserNewContextParams :=
  if bool_decide (is_Some (opt_videoSize options)) && negb (given (opt_videosPath options))
  then Throw videoSize_error
  else
    match from_option validateHeaders None (opt_extraHTTPHeaders options) with
    | Some e => Throw e
    | None =>
        match prepareStorageState options with
        | Throw e => Throw e
        | Ok storageState =>
            let contextParams recordVideo := {|
              par_options := options;
              par_viewport :=
                match opt_viewport options with Value v => Some v | _ => None end;
              par_noDefaultViewport :=
                match opt_viewport options with Null => true | _ => false end;
              par_extraHTTPHeaders := headersObjectToArray <$> opt_extraHTTPHeaders options;
              par_storageState := storageState;
              par_serviceWorkers := opt_serviceWorkers options;
              par_recordHar := prepareRecordHarOptions (opt_recordHar options);
              par_colorScheme := no_override (opt_colorScheme options);
              par_reducedMotion := no_override (opt_reducedMotion options);
              par_forcedColors := no_override (opt_forcedColors options);
              par_recordVideo := recordVideo
            |} in
            match opt_recordVideo options, opt_videosPath options with
            | None, Some dir =>
                if truthy dir
                then Ok (contextParams
                           (Some {| rv_dir := dir; rv_size := opt_videoSize options |}))
                else Ok (contextParams None)
            | recordVideo, _ => Ok (contextParams recordVideo)
            end
        end
    end.

(** The three checks of [prepareBrowserContextParams], in its order. *)
Definition video_ok (options : BrowserContextOptions) : Prop :=
  is_Some (opt_videoSize options) → given (opt_videosPath options) = true.

Definition headers_ok (options : BrowserContextOptions) : Prop :=
  ∀ headers, opt_extraHTTPHeaders options = Some headers → validateHeaders headers = None.

Definition state_ok (options : BrowserContextOptions) : Prop :=
  ∀ path, opt_storageState options = Some (StateFile path) →
          ∃ state, readState path = Ok state.

End Prepare.

(** ** The command line: opening a page and closing the browser *)

Module Cli.

(** The calls [openPage] makes on the context and on the page. *)
Inductive PageCall :=
| NewPage
| Goto (url : string).

Section OpenPage.

(** [fs.existsSync] and [path.resolve]. *)
Variable existsSync : string → bool.
Variable resolve : string → string.

(** The URL [openPage] navigates to, for a [url] that is given. *)
Definition goto_url (url : string) : string :=
  if existsSync url then "file://" +:+ resolve url
  else if negb (startsWith url "http") && negb (startsWith url "file://")
          && negb (startsWith url "about:") && negb (startsWith url "data:")
       then "http://" +:+ url
       else url.

(** [openPage(context, url)]; [skip] is [process.env.SKIP_OPEN_PAGE === '1']. *)
Definition openPage (skip : bool) (url : option string) : list PageCall :=
  if skip then []
  else NewPage :: (if given url then [Goto (goto_url (default "" url))] else []).

End OpenPage.

(** The options [closeBrowser] reads. *)
Record Options := {
  saveTrace : option string;
  saveStorage : option string;
  saveHar : option string;
}.

(** What [closeBrowser] asks besides closing the context. *)
Inductive CliCall :=
| TracingStop (path : string)
| StorageState (path : string)
| BrowserClose.

(** The closure of [launchContext] that [closeBrowser] works on: its flag,
    the context, and the calls made so far. *)
Record State := {
  closingBrowser : bool;
  context : Store;
  cli_sent : list CliCall;
}.

Definition CliM (A : Type) := State → Result A * State.

Section CloseBrowser.

Variable reply : list Call → Call → option Error.
Variable isSafeCloseError : Error → bool.

(** The answer to a call of the command line, given the calls before it. *)
Variable cli_reply : list CliCall → CliCall → option Error.

Variable options : Options.

Definition cli_call (c : CliCall) : CliM unit :=
  λ st,
    let st' := {| closingBrowser := closingBrowser st; context := context st;
                  cli_sent := cli_sent st ++ [c] |} in
    match cli_reply (cli_sent st) c with
    | None => (Ok tt, st')
    | Some e => (Throw e, st')
    end.

(** [await context.close()] *)
Definition context_close : CliM unit :=
  λ st,
    let '(r, s') := close reply isSafeCloseError (context st) in
    (r, {| closingBrowser := closingBrowser st; context := s'; cli_sent := cli_sent st |}).

Definition cli_bind {A B} (m : CliM A) (k : A → CliM B) : CliM B :=
  λ st, match m st with
        | (Ok a, st') => k a st'
        | (Throw e, st') => (Throw e, st')
        end.

Definition cli_when (b : bool) (m : CliM unit) : CliM unit :=
  if b then m else λ st, (Ok tt, st).

(** [m.catch(e => null)], awaited. *)
Definition cli_catch (m : CliM unit) : CliM unit :=
  λ st, match m st with
        | (_, st') => (Ok tt, st')
        end.

(** The part of [closeBrowser] after the flag is set. *)
Definition closeBrowser_body : CliM unit :=
  cli_bind (cli_when (given (saveTrace options))
              (cli_call (TracingStop (default "" (saveTrace options))))) (λ _,
  cli_bind (cli_when (given (saveStorage options))
              (cli_catch (cli_call (StorageState (default "" (saveStorage options)))))) (λ _,
  cli_bind (cli_when (given (saveHar options)) context_close) (λ _,
  cli_call BrowserClose))).

Definition closeBrowser : CliM unit :=
  λ st,
    if closingBrowser st then (Ok tt, st)
    else closeBrowser_body
           {| closingBrowser := true; context := context st; cli_sent := cli_sent st |}.

(** The closure after [n] calls of [closeBrowser] made one after the other,
    as the listeners of [launchContext] make them; what a caller does with
    the error of its call (the page listener drops it) does not change the
    closure. *)
Fixpoint closeBrowser_times (n : nat) (st : State) : State :=
  match n with
  | 0 => st
  | S n' => closeBrowser_times n' (closeBrowser st).2
  end.

End CloseBrowser.

End Cli.

(** ** Notions used in the statements *)

(** A call of [unroute]. *)
Definition is_unroute (c : ChainCall) : Prop :=
  match c with CallUnroute _ _ => True | CallRoute _ _ _ => False end.

(** The half of the flag's invariant that holds while a handler runs: the
    chain is well formed, and interception is on when there are routes. *)
Definition flag_covers (s : Store) : Prop :=
  chain_wf s ∧ (_routes s ≠ [] → interception s = true).

(** What a handler does while it runs is only to call [route] and
    [unroute]: it does not end the dispatch. *)
Definition calls_only (actions : list ChainAction) : Prop :=
  Forall (λ a, match a with ACall _ => True | _ => False end) actions.

(** The calls that drain a recording made with [routeFromHAR] in update
    mode. *)
Definition update_drain (harId har : string) : list Call :=
  HarExport harId ::
  (if Js.endsWith har ".zip"
   then [ArtifactSaveAs harId har]
   else [ArtifactSaveAs harId (har +:+ ".tmp"); HarUnzip (har +:+ ".tmp") har]) ++
  [ArtifactDelete harId].

(** The filter that the three fields of the prepared options stand for. *)
Definition filter_of (out : RecordHarOptions) : option UrlFilter :=
  match rho_urlGlob out, rho_urlRegexSource out, rho_urlRegexFlags out with
  | Some glob, _, _ => Some (FilterString glob)
  | None, Some source, Some flags => Some (FilterRegExp source flags)
  | _, _, _ => None
  end.

(** A URL that [openPage] passes on unchanged, when it names no file. *)
Definition has_scheme (url : string) : bool :=
  startsWith url "http" || startsWith url "file://" ||
  startsWith url "about:" || startsWith url "data:".

(** ** Example environments *)

Module Examples.

(** Collaborators that fulfil every call. *)
Definition accept_all : list Call → Call → option Error := λ _ _, None.

(** A server on which the export of one recording fails. *)
Definition reject_export (harId : string) : list Call → Call → option Error :=
  λ _ c, if bool_decide (c = HarExport harId) then Some "har export failed" else None.

Definition on_context_channel (c : Call) : bool :=
  match c with
  | SetNetworkInterceptionEnabled _ | ExposeBinding _ _ | HarExport _
  | ChannelClose => true
  | _ => false
  end.

(** A server that, once it has been asked to close the context, rejects
    what is asked of the context. *)
Definition closing_server : list Call → Call → option Error :=
  λ h c, if bool_decide (ChannelClose ∈ h) && on_context_channel c
         then Some "Target page, context or browser has been closed"
         else None.

Definition closed_is_safe (e : Error) : bool := Js.endsWith e "has been closed".

(** URL matching by equality with a string pattern. *)
Definition exact_url : option string → string → URLMatch → bool :=
  λ _ requestURL url,
    match url with
    | UrlString glob => String.eqb glob requestURL
    | _ => false
    end.

(** Handler 1 falls through, and while it runs a route is added and the
    route of handler 2 is removed; every other handler acts at once. *)
Definition busy_handlers : RouteHandler → Route → Store → list ChainAction * Result bool :=
  λ rh _ _,
    match rh_handler rh with
    | 1 => ([ACall (CallRoute (UrlString "/api") 3 None);
             ACall (CallUnroute (UrlString "/api") (Some 2))], Ok false)
    | _ => ([], Ok true)
    end.

Definition chain_calls : list ChainCall :=
  [CallRoute (UrlString "/api") 2 None;
   CallRoute (UrlString "/api") 1 (Some 1);
   CallRoute (UrlString "/img") 4 None;
   CallUnroute (UrlString "/img") None].

(** A context with two handlers for "/api": handler 1, added last and
    limited to one use, ahead of handler 2. *)
Definition two_routes : Store :=
  (run_calls accept_all chain_calls (new_context true None None)).2.

Definition api_request : Route := {| route_object := 7; route_url := "/api" |}.

(** A context recording three HARs. *)
Definition three_recorders : Store :=
  {| _routes := []; _bindings := ∅;
     _harRecorders :=
       [("", {| har_path := "a.har"; har_content := Some embed |});
        ("har1", {| har_path := "b.har"; har_content := Some attach |});
        ("har2", {| har_path := "c.zip"; har_content := None |})];
     _browserType := true; _options_baseURL := None;
     handledCount := ∅; next_object := 0; sent := [];
     interception := false; handle_log := [] |}.

(** A context recording one HAR with attached content into a ".har" path. *)
Definition attach_recorder : Store :=
  new_context true None (Some {| har_path := "trace.har"; har_content := Some attach |}).

(** Two callers taking turns. *)
Definition round_robin (turns : nat) : list nat :=
  mjoin (replicate turns [0; 1]).

Definition greet : BindingFunction :=
  {| bf_object := 1;
     bf_apply := λ args, match args with
                         | [VString who] => Ok (VString ("hello " +:+ who))
                         | _ => Throw "greet expects one string"
                         end |}.

Definition greet_again : BindingFunction :=
  {| bf_object := 2; bf_apply := λ _, Ok (VString "hi") |}.

End Examples.

(** Further environments, for the properties beyond the route chain of a
    healthy server. *)
Module MoreExamples.

Import Examples.

(** A server that refuses to enable interception. *)
Definition reject_enable : list Call → Call → option Error :=
  λ _ c, if bool_decide (c = SetNetworkInterceptionEnabled true)
         then Some "interception failed" else None.

(** A server that refuses to disable interception. *)
Definition reject_disable : list Call → Call → option Error :=
  λ _ c, if bool_decide (c = SetNetworkInterceptionEnabled false)
         then Some "interception failed" else None.

(** A server that rejects a request it has seen before. *)
Definition reject_repeated : list Call → Call → option Error :=
  λ h c, if bool_decide (c ∈ h) then Some "already registered" else None.

Definition unroute_twice : list ChainCall :=
  [CallUnroute (UrlString "/api") None; CallUnroute (UrlString "/img") (Some 1)].

(** Handlers that fall through and touch nothing. *)
Definition idle_handlers : RouteHandler → Route → Store → list ChainAction * Result bool :=
  λ _ _ _, ([], Ok false).

(** The first entry of [two_routes]: handler 1, limited to one use. *)
Definition expiring : RouteHandler :=
  {| rh_object := 1; rh_baseURL := None; rh_url := UrlString "/api";
     rh_handler := 1; rh_times := Some 1 |}.

(** [two_routes] after the route of handler 1 was removed. *)
Definition removed_first : Store :=
  (unroute accept_all (UrlString "/api") (Some 1) two_routes).2.

(** A context whose only route is on its last use. *)
Definition one_shot : Store :=
  (route accept_all (UrlString "/api") 1 (Some 1) (new_context true None None)).2.

(** A context in which "greet" is registered. *)
Definition greeting : Store :=
  (exposeBinding reject_repeated "greet" greet false (new_context true None None)).2.

(** Options with a video size and a videos path, and no viewport. *)
Definition video_options : BrowserContextOptions :=
  {| opt_videoSize := Some {| width := 800; height := 600 |};
     opt_videosPath := Some "videos";
     opt_recordVideo := None;
     opt_extraHTTPHeaders := Some [("x-test", "1")];
     opt_viewport := Null;
     opt_storageState := None;
     opt_serviceWorkers := None;
     opt_recordHar := None;
     opt_colorScheme := Null;
     opt_reducedMotion := Undefined;
     opt_forcedColors := Value "active" |}.

Definition any_headers : list (string * string) → option Error := λ _, None.

Definition no_file : string → Result JSValue := λ _, Throw "ENOENT".

Definition video_params : BrowserNewContextParams :=
  {| par_options := video_options;
     par_viewport := None;
     par_noDefaultViewport := true;
     par_extraHTTPHeaders := Some [("x-test", "1")];
     par_storageState := None;
     par_serviceWorkers := None;
     par_recordHar := None;
     par_colorScheme := Some "no-override";
     par_reducedMotion := None;
     par_forcedColors := Some "active";
     par_recordVideo :=
       Some {| rv_dir := "videos"; rv_size := Some {| width := 800; height := 600 |} |} |}.

(** A command line that saves a trace, the storage state and a HAR. *)
Definition save_all : Cli.Options :=
  {| Cli.saveTrace := Some "trace.zip"; Cli.saveStorage := Some "state.json";
     Cli.saveHar := Some "out.har" |}.

(** Stopping the trace fails. *)
Definition reject_trace : list Cli.CliCall → Cli.CliCall → option Error :=
  λ _ c, match c with
         | Cli.TracingStop _ => Some "tracing failed"
         | _ => None
         end.

(** Saving the storage state fails. *)
Definition reject_storage : list Cli.CliCall → Cli.CliCall → option Error :=
  λ _ c, match c with
         | Cli.StorageState _ => Some "disk full"
         | _ => None
         end.

Definition trace_har : HarParams := {| har_path := "trace.har"; har_content := Some attach |}.

Definition launched : Cli.State :=
  {| Cli.closingBrowser := false; Cli.context := attach_recorder; Cli.cli_sent := [] |}.

End MoreExamples.

(** ** Properties of the route chain *)

Section RouteChain.

Variable reply : list Call → Call → option Error.

Lemma call_Ok c s s' :
  call reply c s = (Ok tt, s') → s' = server_effect c (record_call c s).
Proof. unfold call. destruct (reply (sent s) c); congruence. Qed.

Lemma Forall_filter_keep {A} (Q P : A → Prop) `{∀ x, Decision (P x)} (l : list A) :
  Forall Q l → Forall Q (filter P l).
Proof.
  rewrite !Forall_forall. intros HQ x [_ Hx]%list_elem_of_filter. by apply HQ.
Qed.

Lemma lifo_filter (P : RouteHandler → Prop) `{∀ r, Decision (P r)} chain :
  lifo chain → lifo (filter P chain).
Proof.
  unfold lifo. induction 1 as [|r chain Hs IH Hr]; [constructor |].
  rewrite filter_cons. destruct (decide (P r)); [| done].
  constructor; [done |]. by apply Forall_filter_keep.
Qed.

Lemma new_context_inv browserType baseURL recordHar :
  chain_inv (new_context browserType baseURL recordHar).
Proof.
  repeat split; simpl; try constructor; try done.
Qed.

Lemma route_inv url handler times s s' :
  chain_inv s → route reply url handler times s = (Ok tt, s') → chain_inv s'.
Proof.
  intros (Hl & Hb & Hi). unfold route. simpl.
  case_decide as Hlen.
  - intros ->%call_Ok.
    assert (_routes s = []) as E by (by destruct (_routes s)).
    unfold chain_inv, lifo. simpl. rewrite E.
    repeat split; try done; repeat constructor.
  - intros [= <-]. unfold chain_inv, lifo. simpl. repeat split; try done.
    + constructor; [done |]. eapply Forall_impl; [exact Hb | done].
    + constructor; [simpl; lia |].
      eapply Forall_impl; [exact Hb |]. intros r Hr. simpl in *. lia.
    + intros _. apply Hi. by destruct (_routes s).
Qed.

Lemma unroute_inv url handler s s' :
  chain_inv s → unroute reply url handler s = (Ok tt, s') → chain_inv s'.
Proof.
  intros (Hl & Hb & Hi). unfold unroute, _disableInterception. simpl.
  case_decide as Hlen.
  - intros ->%call_Ok. apply nil_length_inv in Hlen.
    unfold chain_inv, lifo. simpl. rewrite Hlen.
    repeat split; try done; constructor.
  - intros [= <-]. unfold chain_inv. simpl. repeat split.
    + by apply lifo_filter.
    + by apply Forall_filter_keep.
    + intros _ E. by rewrite E in Hlen.
    + intros Hne. apply Hi. intros E. by rewrite E in Hne.
Qed.

Lemma run_calls_inv calls : ∀ s s',
  chain_inv s → run_calls reply calls s = (Ok tt, s') → chain_inv s'.
Proof.
  induction calls as [|c calls IH]; intros s s' Hinv; simpl.
  - munfold. by intros [= <-].
  - munfold. destruct (run_call reply c s) as [[[]|e] s1] eqn:E; [| done].
    intros Hrest. apply (IH s1); [| done].
    destruct c; simpl in E; [by eapply route_inv | by eapply unroute_inv].
Qed.

Lemma route_fulfilled url handler times s :
  (∀ h enabled, reply h (SetNetworkInterceptionEnabled enabled) = None) →
  ∃ s', route reply url handler times s = (Ok tt, s').
Proof.
  intros Hall. unfold route. simpl. case_decide; [| eauto].
  unfold call. rewrite Hall. eauto.
Qed.

Lemma unroute_fulfilled url handler s :
  (∀ h enabled, reply h (SetNetworkInterceptionEnabled enabled) = None) →
  ∃ s', unroute reply url handler s = (Ok tt, s').
Proof.
  intros Hall. unfold unroute, _disableInterception. simpl. case_decide; [| eauto].
  unfold call. rewrite Hall. eauto.
Qed.

Lemma run_calls_fulfilled calls : ∀ s,
  (∀ h enabled, reply h (SetNetworkInterceptionEnabled enabled) = None) →
  ∃ s', run_calls reply calls s = (Ok tt, s').
Proof.
  induction calls as [|c calls IH]; intros s Hall; simpl; [by eexists |]. munfold.
  assert (∃ s1, run_call reply c s = (Ok tt, s1)) as [s1 ->].
  { destruct c; simpl; [by apply route_fulfilled | by apply unroute_fulfilled]. }
  by apply IH.
Qed.

(** C4 (as the code has it): when the server fulfils the requests about
    interception, every sequence of awaited [route]/[unroute] calls on a
    fresh context goes through, and after it the chain is ordered
    most-recently-added first and the server's interception flag is on
    exactly when the chain is non-empty.  The next [route] returns
    normally, puts its entry at the front and sends one enable request when
    it makes the chain non-empty (none otherwise); the next [unroute]
    returns normally, removes the entries it names and sends exactly one
    disable request when it leaves the chain empty (none otherwise). *)
Theorem route_unroute_keep_lifo_and_interception
    browserType baseURL recordHar calls :
  (∀ h enabled, reply h (SetNetworkInterceptionEnabled enabled) = None) →
  ∃ s,
    run_calls reply calls (new_context browserType baseURL recordHar) = (Ok tt, s) ∧
    lifo (_routes s) ∧
    (interception s = true ↔ _routes s ≠ []) ∧
    (∀ url handler times, ∃ s',
       route reply url handler times s = (Ok tt, s') ∧
       (∃ rh, _routes s' = rh :: _routes s ∧ rh_object rh = next_object s ∧
              rh_url rh = url ∧ rh_handler rh = handler ∧ rh_times rh = times) ∧
       sent s' = sent s ++
         (if decide (_routes s = []) then [SetNetworkInterceptionEnabled true] else []) ∧
       interception s' = true) ∧
    (∀ url handler, ∃ s',
       unroute reply url handler s = (Ok tt, s') ∧
       _routes s' = filter (survives url handler) (_routes s) ∧
       (_routes s' = [] → sent s' = sent s ++ [SetNetworkInterceptionEnabled false] ∧
                          interception s' = false) ∧
       (_routes s' ≠ [] → sent s' = sent s ∧ interception s' = true)).
Proof.
  intros Hall.
  destruct (run_calls_fulfilled calls (new_context browserType baseURL recordHar) Hall)
    as [s Hrun].
  exists s. split; [done |].
  pose proof (run_calls_inv _ _ _ (new_context_inv _ _ _) Hrun) as (Hl & Hb & Hi).
  split; [done |]. split; [done |]. split.
  - intros url handler times.
    destruct (route_fulfilled url handler times s Hall) as [s' Hs'].
    exists s'. split; [done |]. revert Hs'.
    unfold route. simpl. case_decide as Hlen.
    + intros ->%call_Ok.
      assert (_routes s = []) as E by (by destruct (_routes s)).
      simpl. rewrite decide_True by done. eauto 10.
    + intros [= <-]. simpl.
      assert (_routes s ≠ []) as E by (by destruct (_routes s)).
      rewrite decide_False by done. rewrite app_nil_r.
      split; [eauto 10 |]. split; [done |]. by apply Hi.
  - intros url handler.
    destruct (unroute_fulfilled url handler s Hall) as [s' Hs'].
    exists s'. split; [done |]. revert Hs'.
    unfold unroute, _disableInterception. simpl.
    case_decide as Hlen.
    + intros ->%call_Ok. apply nil_length_inv in Hlen. simpl. by rewrite Hlen.
    + intros [= <-]. simpl. split; [done |]. split.
      * intros E. by rewrite E in Hlen.
      * intros Hne. split; [done |]. apply Hi. intros E. by rewrite E in Hne.
Qed.

End RouteChain.

(** ** Properties of the dispatch of a route event *)

Lemma elem_of_sublist {A} (x : A) (l1 l2 : list A) :
  l1 `sublist_of` l2 → x ∈ l1 → x ∈ l2.
Proof.
  induction 1 as [|y l1 l2 _ IH|y l1 l2 _ IH]; [done | |].
  - rewrite !elem_of_cons. intros [-> | Hx]; [by left | right; by apply IH].
  - intros Hx. rewrite elem_of_cons. right. by apply IH.
Qed.

Lemma Forall_sublist_of {A} (P : A → Prop) (l1 l2 : list A) :
  l1 `sublist_of` l2 → Forall P l2 → Forall P l1.
Proof.
  rewrite !Forall_forall. intros Hsub HP x Hx. apply HP.
  by eapply elem_of_sublist.
Qed.

Lemma lifo_sublist l1 l2 : l1 `sublist_of` l2 → lifo l2 → lifo l1.
Proof.
  unfold lifo. induction 1 as [|y l1 l2 Hsub IH|y l1 l2 Hsub IH]; [done | |].
  - intros [Hs Hy]%StronglySorted_inv. constructor; [by apply IH |].
    by eapply Forall_sublist_of.
  - intros [Hs Hy]%StronglySorted_inv. by apply IH.
Qed.

Lemma lifo_head_fresh r chain : lifo (r :: chain) → rh_object r ∉ rh_object <$> chain.
Proof.
  intros [_ Hr]%StronglySorted_inv [r' [E Hin]]%list_elem_of_fmap.
  rewrite Forall_forall in Hr. specialize (Hr r' Hin). lia.
Qed.

Lemma removelast_sublist {A} (l : list A) : removelast l `sublist_of` l.
Proof. rewrite removelast_firstn_len. apply sublist_take. Qed.

Lemma splice1_sublist {A} (start : option nat) (l : list A) :
  Js.splice1 start l `sublist_of` l.
Proof. destruct start; [apply sublist_delete | apply removelast_sublist]. Qed.

Lemma indexOf_None rh chain :
  Js.indexOf same_object rh chain = None → rh_object rh ∉ rh_object <$> chain.
Proof.
  induction chain as [|y ys IH]; simpl; [intros _; apply not_elem_of_nil |].
  unfold same_object at 1. case_bool_decide as E; [done |].
  destruct (Js.indexOf same_object rh ys); [done |]. intros _.
  rewrite not_elem_of_cons. auto.
Qed.

(** After [this._routes.splice(this._routes.indexOf(rh), 1)] the object
    [rh] is not in a chain of distinct objects. *)
Lemma splice_removes rh chain :
  lifo chain →
  rh_object rh ∉ rh_object <$> Js.splice1 (Js.indexOf same_object rh chain) chain.
Proof.
  destruct (Js.indexOf same_object rh chain) as [i|] eqn:E.
  - revert i E. induction chain as [|y ys IH]; intros i E Hl; [done |].
    simpl in E. unfold same_object at 1 in E. case_bool_decide as Hy.
    + injection E as <-. simpl. rewrite Hy. by apply lifo_head_fresh.
    + destruct (Js.indexOf same_object rh ys) as [j|] eqn:Ej; [| done].
      injection E as <-. simpl. rewrite not_elem_of_cons. split; [done |].
      apply (IH j); [done |]. by apply StronglySorted_inv in Hl as [? _].
  - intros _ Hin. apply indexOf_None in E. apply E.
    apply list_elem_of_fmap in Hin as (r & -> & Hr).
    apply list_elem_of_fmap. exists r. split; [done |].
    eapply elem_of_sublist; [apply removelast_sublist | done].
Qed.

Section Dispatch.

Variable urlMatches : option string → string → URLMatch → bool.
Variable reply : list Call → Call → option Error.
Variable during_handle : RouteHandler → Route → Store → list ChainAction * Result bool.

Lemma call_frame c s :
  _routes (call reply c s).2 = _routes s ∧
  next_object (call reply c s).2 = next_object s ∧
  handle_log (call reply c s).2 = handle_log s ∧
  handledCount (call reply c s).2 = handledCount s ∧
  sent (call reply c s).2 = sent s ++ [c].
Proof. unfold call. destruct (reply (sent s) c); by destruct c. Qed.

Lemma run_call_wf c s : chain_wf s → chain_wf (run_call reply c s).2.
Proof.
  intros [Hl Hb]. destruct c as [url handler times|url handler]; simpl.
  - unfold route. simpl.
    assert (chain_wf (set_routes (cons
      {| rh_object := next_object s; rh_baseURL := _options_baseURL s;
         rh_url := url; rh_handler := handler; rh_times := times |})
      (set_next_object (S (next_object s)) s))) as Hwf.
    { split; simpl.
      - constructor; [done |]. eapply Forall_impl; [exact Hb | done].
      - constructor; [simpl; lia |].
        eapply Forall_impl; [exact Hb |]. intros r Hr. simpl in *. lia. }
    case_decide; [| done].
    destruct Hwf as [Hl' Hb']. unfold chain_wf.
    by destruct (call_frame (SetNetworkInterceptionEnabled true) (set_routes (cons
      {| rh_object := next_object s; rh_baseURL := _options_baseURL s;
         rh_url := url; rh_handler := handler; rh_times := times |})
      (set_next_object (S (next_object s)) s))) as (-> & -> & _).
  - unfold unroute, _disableInterception. simpl.
    assert (chain_wf (set_routes (filter (survives url handler)) s)) as Hwf.
    { split; simpl; [by apply lifo_filter | by apply Forall_filter_keep]. }
    case_decide; [| done].
    destruct Hwf as [Hl' Hb']. unfold chain_wf.
    by destruct (call_frame (SetNetworkInterceptionEnabled false)
      (set_routes (filter (survives url handler)) s)) as (-> & -> & _).
Qed.

Lemma call_handle_log c s : handle_log (call reply c s).2 = handle_log s.
Proof. apply call_frame. Qed.

Lemma call_sent c s : sent (call reply c s).2 = sent s ++ [c].
Proof. apply call_frame. Qed.

Lemma run_call_handle_log c s : handle_log (run_call reply c s).2 = handle_log s.
Proof.
  destruct c; simpl; unfold route, unroute, _disableInterception;
    case_decide; try done; by rewrite call_handle_log.
Qed.

Lemma splice_handler_wf rh s : chain_wf s → chain_wf (splice_handler rh s).
Proof.
  intros [Hl Hb]. split; simpl.
  - eapply lifo_sublist; [apply splice1_sublist | done].
  - eapply Forall_sublist_of; [apply splice1_sublist | done].
Qed.

Lemma apply_action_wf s a : chain_wf s → chain_wf (apply_action reply s a).
Proof.
  destruct a; simpl; [apply run_call_wf | apply splice_handler_wf | done].
Qed.

Lemma apply_action_handle_log s a :
  handle_log (apply_action reply s a) = handle_log s.
Proof. destruct a; simpl; [apply run_call_handle_log | done | done]. Qed.

Lemma apply_actions_wf actions : ∀ s,
  chain_wf s → chain_wf (foldl (apply_action reply) s actions).
Proof.
  induction actions as [|a actions IH]; intros s Hwf; simpl; [done |].
  by apply IH, apply_action_wf.
Qed.

Lemma apply_actions_handle_log actions : ∀ s,
  handle_log (foldl (apply_action reply) s actions) = handle_log s.
Proof.
  induction actions as [|a actions IH]; intros s; simpl; [done |].
  by rewrite IH, apply_action_handle_log.
Qed.

Local Abbreviation matching route :=
  (filter (λ rh, matches urlMatches rh (route_url route) = true)).

Lemma swallow_call c s : swallow (call reply c) s = (Ok tt, (call reply c s).2).
Proof. unfold swallow, try_catch, call, ret. by destruct (reply (sent s) c). Qed.

Lemma dispatch_match route rh rest s :
  matches urlMatches rh (route_url route) = true →
  dispatch urlMatches reply during_handle route (rh :: rest) s =
  match handle reply during_handle rh route
          (if willExpire rh s then splice_handler rh s else s) with
  | (Throw e, s2) => (Throw e, s2)
  | (Ok handled, s2) =>
      if handled then (Ok tt, after_handle reply s2)
      else dispatch urlMatches reply during_handle route rest (after_handle reply s2)
  end.
Proof.
  intros Em. simpl. rewrite Em. simpl. munfold. unfold after_handle.
  destruct (willExpire rh s); simpl;
    (destruct (handle _ _ _ _ _) as [[handled|e] s2]; [| done]);
    unfold _disableInterception; case_bool_decide; simpl;
    rewrite ?swallow_call; by destruct handled.
Qed.

Lemma after_handle_frame s :
  handle_log (after_handle reply s) = handle_log s ∧
  (chain_wf s → chain_wf (after_handle reply s)).
Proof.
  unfold after_handle. case_bool_decide; [| done].
  split; [apply call_handle_log |]. unfold chain_wf.
  by destruct (call_frame (SetNetworkInterceptionEnabled false) s) as (-> & -> & _).
Qed.

Lemma uses_count_use rh s : uses (count_use rh s) rh = S (uses s rh).
Proof. unfold uses, count_use. simpl. by rewrite lookup_insert_eq. Qed.

Lemma handle_spec rh route s :
  let res := handle reply during_handle rh route s in
  handle_log res.2 =
    handle_log s ++ [{| he_handler := rh; he_use := S (uses s rh);
                        he_live := _routes s; he_result := res.1 |}] ∧
  (chain_wf s → chain_wf res.2).
Proof.
  unfold handle. simpl.
  destruct (during_handle rh route (count_use rh s)) as [actions decision] eqn:E.
  simpl. split.
  - by rewrite apply_actions_handle_log, uses_count_use.
  - intros Hwf. by apply apply_actions_wf.
Qed.

(** The observations one dispatch adds to the log, for any list it iterates. *)
Lemma dispatch_spec route routeHandlers : ∀ s,
  chain_wf s →
  let res := dispatch urlMatches reply during_handle route routeHandlers s in
  ∃ invoked,
    chain_wf res.2 ∧
    handle_log res.2 = handle_log s ++ invoked ∧
    (he_handler <$> invoked) `prefix_of` (matching route routeHandlers) ∧
    Forall (λ ev, expires_on (he_handler ev) (he_use ev) = true →
                  rh_object (he_handler ev) ∉ rh_object <$> he_live ev) invoked ∧
    (∀ i ev, invoked !! i = Some ev → S i < length invoked →
             he_result ev = Ok false) ∧
    (Forall (λ ev, he_result ev = Ok false) invoked →
     he_handler <$> invoked = matching route routeHandlers ∧
     ∃ before, sent res.2 = before ++ [InnerContinue (route_object route)]).
Proof.
  induction routeHandlers as [|rh rest IH]; intros s Hwf.
  - exists []. simpl. rewrite call_handle_log, call_sent, app_nil_r.
    split.
    { unfold chain_wf.
      by destruct (call_frame (InnerContinue (route_object route)) s) as (-> & -> & _). }
    repeat split; try done; eauto.
  - destruct (matches urlMatches rh (route_url route)) eqn:Em.
    2: { simpl. rewrite Em. simpl. rewrite filter_cons_False by congruence.
         by apply IH. }
    rewrite filter_cons_True by done.
    rewrite dispatch_match by done.
    set (s1 := if willExpire rh s then splice_handler rh s else s).
    assert (chain_wf s1) as Hwf1.
    { unfold s1. destruct (willExpire rh s); [by apply splice_handler_wf | done]. }
    assert (uses s1 rh = uses s rh) as Huses.
    { unfold s1. by destruct (willExpire rh s). }
    assert (expires_on rh (S (uses s1 rh)) = true →
            rh_object rh ∉ rh_object <$> _routes s1) as Hgone.
    { rewrite Huses. unfold s1, willExpire. intros ->. simpl.
      apply splice_removes, Hwf. }
    assert (handle_log s1 = handle_log s) as Hlog1.
    { unfold s1. by destruct (willExpire rh s). }
    pose proof (handle_spec rh route s1) as [Hlog Hwf2]. simpl in Hlog, Hwf2.
    rewrite Hlog1 in Hlog.
    destruct (handle reply during_handle rh route s1) as [[handled|e] s2] eqn:Eh;
      simpl in Hlog, Hwf2; cbv zeta.
    + destruct (after_handle_frame s2) as [Hlog3 Hwf3].
      destruct handled.
      * eexists [_]. simpl. rewrite Hlog3, Hlog. split; [auto |]. split; [done |].
        split; [apply prefix_cons, prefix_nil |].
        split; [by constructor |].
        split; [intros [|i] ev; simpl; [lia | done] |].
        by intros [[=] _]%Forall_cons.
      * destruct (IH (after_handle reply s2))
          as (invoked & Hwf' & Hl & Hp & Hx & Hnl & Hall); [auto |].
        eexists (_ :: invoked). rewrite Hl, Hlog3, Hlog, <-app_assoc.
        split; [done |]. split; [done |]. simpl.
        split; [by apply prefix_cons |].
        split; [by constructor |].
        split.
        { intros [|i] ev; simpl; [by intros [= <-] |].
          intros Hi Hlt. apply (Hnl i); [done | lia]. }
        intros [_ Hrest]%Forall_cons. destruct (Hall Hrest) as [Heq Hsent].
        split; [by f_equal | done].
    + eexists [_]. simpl. rewrite Hlog. split; [auto |]. split; [done |].
      split; [apply prefix_cons, prefix_nil |].
      split; [by constructor |].
      split; [intros [|i] ev; simpl; [lia | done] |].
      by intros [[=] _]%Forall_cons.
Qed.

(** C3: [_onRoute] iterates the chain as it was when the event arrived,
    front to back, whatever is added to or removed from the live chain while
    handlers are awaited: the handlers it invokes are, in order, an initial
    run of the matching entries of that snapshot, and only the last of them
    may have acted.  A handler on its expiring use is no longer in the live
    chain when it is invoked.  When no invoked handler acted, every matching
    entry of the snapshot was invoked and the dispatch ends by continuing
    the request. *)
Theorem onRoute_iterates_snapshot route s :
  chain_wf s →
  let res := _onRoute urlMatches reply during_handle route s in
  ∃ invoked,
    handle_log res.2 = handle_log s ++ invoked ∧
    (he_handler <$> invoked) `prefix_of` (matching route (_routes s)) ∧
    (∀ i ev, invoked !! i = Some ev → S i < length invoked →
             he_result ev = Ok false) ∧
    Forall (λ ev, expires_on (he_handler ev) (he_use ev) = true →
                  (rh_object (he_handler ev) ∉ rh_object <$> he_live ev) ∧
                  (he_handler ev ∉ he_live ev)) invoked ∧
    (Forall (λ ev, he_result ev = Ok false) invoked →
     he_handler <$> invoked = matching route (_routes s) ∧
     ∃ before, sent res.2 = before ++ [InnerContinue (route_object route)]).
Proof.
  intros Hwf. unfold _onRoute. munfold. simpl.
  destruct (dispatch_spec route (_routes s) s Hwf)
    as (invoked & _ & Hl & Hp & Hx & Hnl & Hall).
  exists invoked. repeat split; try done.
  - eapply Forall_impl; [exact Hx |]. intros ev Hev Hexp. split; [auto |].
    intros Hin. apply (Hev Hexp). apply list_elem_of_fmap. eauto.
  - by apply Hall.
  - by apply Hall.
Qed.

(** The chain is well formed in a fresh context, and stays so across the
    calls of the API (see [run_call_wf]) and across a dispatch. *)
Lemma new_context_wf browserType baseURL recordHar :
  chain_wf (new_context browserType baseURL recordHar).
Proof. split; constructor. Qed.

Lemma onRoute_wf route s :
  chain_wf s → chain_wf (_onRoute urlMatches reply during_handle route s).2.
Proof.
  intros Hwf. unfold _onRoute. munfold. simpl.
  by destruct (dispatch_spec route (_routes s) s Hwf) as (invoked & ? & _).
Qed.

End Dispatch.

(** ** Properties of the binding table *)

Section Bindings.

Variable reply : list Call → Call → option Error.

Lemma BindingCall_call_spec bc func s :
  let res := BindingCall_call reply bc func s in
  res.1 = Ok tt ∧
  _bindings res.2 = _bindings s ∧
  sent res.2 = sent s ++ [InvokeBinding (bf_object func) (bc_args bc); response bc func].
Proof.
  unfold BindingCall_call, response. munfold. simpl.
  destruct (bf_apply func (bc_args bc)); rewrite swallow_call; simpl;
    unfold call; simpl; destruct (reply _ _); simpl; by rewrite <-app_assoc.
Qed.

Lemma onBinding_known bindingCall func s :
  _bindings s !! bc_name bindingCall = Some func →
  (_onBinding reply bindingCall s).1 = Ok tt ∧
  sent (_onBinding reply bindingCall s).2 =
    sent s ++ [InvokeBinding (bf_object func) (bc_args bindingCall);
               response bindingCall func].
Proof.
  intros E. unfold _onBinding. munfold. rewrite E.
  by destruct (BindingCall_call_spec bindingCall func s) as (H1 & _ & H3).
Qed.

(** C7: a binding call whose name is not in the table changes nothing:
    no callback is invoked, no response is sent and nothing is thrown.  A
    binding call whose name is registered invokes the registered function
    once with the forwarded arguments and reports its return value (or the
    error it threw) through the call's own response. *)
Theorem onBinding_unknown_ignored_known_invoked bindingCall s :
  match _bindings s !! bc_name bindingCall with
  | None => _onBinding reply bindingCall s = (Ok tt, s)
  | Some func =>
      (_onBinding reply bindingCall s).1 = Ok tt ∧
      sent (_onBinding reply bindingCall s).2 =
        sent s ++ [InvokeBinding (bf_object func) (bc_args bindingCall);
                   response bindingCall func] ∧
      response bindingCall func =
        match bf_apply func (bc_args bindingCall) with
        | Ok result => BindingResolve (bc_object bindingCall) result
        | Throw e => BindingReject (bc_object bindingCall) e
        end
  end.
Proof.
  destruct (_bindings s !! bc_name bindingCall) as [func|] eqn:E.
  - destruct (onBinding_known bindingCall func s E) as [H1 H2]. done.
  - unfold _onBinding. munfold. by rewrite E.
Qed.

(** C8: [exposeBinding] makes no check of its own: it throws exactly when
    the channel rejects the request, and otherwise the table maps the name
    to the new function, whether or not the name was registered before; a
    later binding call for that name invokes the new function and no
    other. *)
Theorem exposeBinding_overwrites name callback handle s :
  let res := exposeBinding reply name callback handle s in
  res.1 = match reply (sent s) (ExposeBinding name handle) with
          | None => Ok tt
          | Some e => Throw e
          end ∧
  (res.1 = Ok tt →
   _bindings res.2 = <[name := callback]> (_bindings s) ∧
   _bindings res.2 !! name = Some callback ∧
   ∀ bindingCall, bc_name bindingCall = name →
     sent (_onBinding reply bindingCall res.2).2 =
       sent res.2 ++ [InvokeBinding (bf_object callback) (bc_args bindingCall);
                      response bindingCall callback]).
Proof.
  unfold exposeBinding. munfold. unfold call. simpl.
  destruct (reply (sent s) (ExposeBinding name handle)) as [e|] eqn:E; simpl.
  - split; [done |]. done.
  - split; [done |]. intros _. split; [done |].
    split; [apply lookup_insert_eq |].
    intros bindingCall Hname.
    apply onBinding_known. simpl. rewrite Hname. apply lookup_insert_eq.
Qed.

End Bindings.

(** ** Properties of [close] *)

Section Close.

Variable reply : list Call → Call → option Error.
Variable isSafeCloseError : Error → bool.

Lemma accepted_cons s c cs :
  accepted reply s (c :: cs) →
  reply (sent s) c = None ∧ accepted reply (call reply c s).2 cs.
Proof.
  intros Hacc. split.
  - rewrite <-(app_nil_r (sent s)). by apply (Hacc [] c cs).
  - intros done c' rest ->. rewrite call_sent, <-app_assoc. simpl.
    by apply (Hacc (c :: done) c' rest).
Qed.

Lemma perform_accepted cs : ∀ s,
  accepted reply s cs →
  (perform reply cs s).1 = Ok tt ∧ sent (perform reply cs s).2 = sent s ++ cs.
Proof.
  induction cs as [|c cs IH]; intros s Hacc; simpl.
  - munfold. simpl. by rewrite app_nil_r.
  - apply accepted_cons in Hacc as [Hc Hrest]. munfold.
    destruct (IH _ Hrest) as [IH1 IH2]. rewrite call_sent in IH2.
    unfold call in *. rewrite Hc in *. simpl in *.
    rewrite IH1, IH2. by rewrite <-app_assoc.
Qed.

Lemma perform_rejected done : ∀ c rest e s,
  accepted reply s done →
  reply (sent s ++ done) c = Some e →
  (perform reply (done ++ c :: rest) s).1 = Throw e ∧
  sent (perform reply (done ++ c :: rest) s).2 = sent s ++ done ++ [c].
Proof.
  induction done as [|d done IH]; intros c rest e s Hacc Hc; simpl.
  - rewrite app_nil_r in Hc. munfold. unfold call. by rewrite Hc.
  - apply accepted_cons in Hacc as [Hd Hrest]. munfold.
    destruct (IH c rest e (call reply d s).2 Hrest) as [IH1 IH2].
    { by rewrite call_sent, <-app_assoc. }
    rewrite call_sent in IH2. unfold call in *. rewrite Hd in *. simpl in *.
    destruct (perform reply (done ++ c :: rest) _) as [[[]|e'] s'];
      simpl in *; [done |]. split; [done |]. by rewrite IH2, <-app_assoc.
Qed.

Lemma perform_app cs1 cs2 : ∀ s,
  perform reply (cs1 ++ cs2) s = (perform reply cs1;; perform reply cs2) s.
Proof.
  induction cs1 as [|c cs1 IH]; intros s; simpl; munfold; [done |].
  destruct (call reply c s) as [[[]|e] s1]; [| done]. rewrite IH. by munfold.
Qed.

Lemma drain_perform recorder s :
  drain reply recorder s = perform reply (har_steps recorder) s.
Proof.
  destruct recorder as [harId harParams]. unfold drain, har_steps.
  destruct (isCompressed harParams && negb (needCompressed harParams));
    simpl; munfold;
    repeat match goal with
           | |- context [call reply ?c ?s] =>
               destruct (call reply c s) as [[[]|?] ?]
           end; done.
Qed.

Lemma for_of_drain recorders : ∀ s,
  for_of recorders (drain reply) s =
  perform reply (flat_map har_steps recorders) s.
Proof.
  induction recorders as [|r recorders IH]; intros s; simpl; [done |].
  rewrite perform_app. munfold. rewrite drain_perform.
  destruct (perform reply (har_steps r) s) as [[[]|e] s1]; [apply IH | done].
Qed.

Lemma call_context c s :
  _harRecorders (call reply c s).2 = _harRecorders s ∧
  _browserType (call reply c s).2 = _browserType s.
Proof. unfold call. destruct (reply (sent s) c); by destruct c. Qed.

(** [close] performs the calls of [teardown], one after the other, and
    stops at the first that is rejected. *)
Lemma close_performs_teardown s :
  close reply isSafeCloseError s =
  try_catch (perform reply (teardown s)) (on_close_error isSafeCloseError) s.
Proof.
  unfold close, try_catch, teardown, on_close_error.
  destruct (_browserType s) eqn:Eb; simpl app; cbn [perform];
    unfold mbind, M_bind, bind, gets, when, mret, M_ret, ret; rewrite Eb.
  - pose proof (call_context OnWillCloseContext s) as [Hrec _].
    destruct (call reply OnWillCloseContext s) as [[[]|e] s1];
      simpl in Hrec; [| done].
    rewrite Hrec, for_of_drain, perform_app.
    unfold mbind, M_bind, bind.
    destruct (perform reply (flat_map har_steps (_harRecorders s)) s1)
      as [[[]|e] s2]; [| done].
    cbn [perform]. unfold mbind, M_bind, bind, mret, M_ret, ret.
    by repeat match goal with
           | |- context [call reply ?c ?s] =>
               destruct (call reply c s) as [[[]|?] ?]
           end.
  - rewrite for_of_drain, perform_app.
    unfold mbind, M_bind, bind.
    destruct (perform reply (flat_map har_steps (_harRecorders s)) s)
      as [[[]|e] s2]; [| done].
    cbn [perform]. unfold mbind, M_bind, bind, mret, M_ret, ret.
    by repeat match goal with
           | |- context [call reply ?c ?s] =>
               destruct (call reply c s) as [[[]|?] ?]
           end.
Qed.

Lemma close_stops_at_rejection s done c rest e :
  teardown s = done ++ c :: rest →
  accepted reply s done →
  reply (sent s ++ done) c = Some e →
  (close reply isSafeCloseError s).1 = (if isSafeCloseError e then Ok tt else Throw e) ∧
  sent (close reply isSafeCloseError s).2 = sent s ++ done ++ [c].
Proof.
  intros Ht Hacc Hc. rewrite close_performs_teardown, Ht. unfold try_catch.
  destruct (perform_rejected done c rest e s Hacc Hc) as [H1 H2].
  destruct (perform reply (done ++ c :: rest) s) as [r s']. simpl in *. subst r.
  unfold on_close_error. munfold. by destruct (isSafeCloseError e).
Qed.

Lemma close_accepted s :
  accepted reply s (teardown s) →
  (close reply isSafeCloseError s).1 = Ok tt ∧
  sent (close reply isSafeCloseError s).2 = sent s ++ teardown s.
Proof.
  intros Hacc. rewrite close_performs_teardown. unfold try_catch.
  destruct (perform_accepted (teardown s) s Hacc) as [H1 H2].
  destruct (perform reply (teardown s) s) as [r s']. simpl in *. by subst r.
Qed.

Lemma teardown_at_session s pre harId harParams post :
  _harRecorders s = pre ++ (harId, harParams) :: post →
  teardown s =
  drained s pre ++ har_steps (harId, harParams) ++
  flat_map har_steps post ++ [ChannelClose; AwaitClosedPromise].
Proof.
  intros E. unfold teardown, drained. rewrite E, flat_map_app.
  cbn [flat_map]. by rewrite <-!app_assoc.
Qed.

(** C2 (as the code has it): when the export of a recording is rejected,
    [close] stops there.  The calls it has made are the pre-close hook, the
    full drains of the recordings registered before, and the rejected
    export: no later recording is exported and the context is not asked
    to close.  The error is thrown to the caller at once, unless it is a
    safe close error, which ends [close] normally. *)
Theorem close_stops_at_failed_export s pre harId harParams post e :
  _harRecorders s = pre ++ (harId, harParams) :: post →
  accepted reply s (drained s pre) →
  reply (sent s ++ drained s pre) (HarExport harId) = Some e →
  (close reply isSafeCloseError s).1 =
    (if isSafeCloseError e then Ok tt else Throw e) ∧
  sent (close reply isSafeCloseError s).2 =
    sent s ++ drained s pre ++ [HarExport harId].
Proof.
  intros E Hacc Hrej.
  eapply close_stops_at_rejection; [| done | done].
  rewrite (teardown_at_session _ _ _ _ _ E). simpl. reflexivity.
Qed.

End Close.

(** ** Properties of the files a drain writes *)

Section HarFiles.

Variable reply : list Call → Call → option Error.
Variable isSafeCloseError : Error → bool.
Variable exported : string → FileForm.
Variable keeps_zipFile : bool.

Lemma files_after_har_steps harId harParams fs :
  files_after exported keeps_zipFile (har_steps (harId, harParams)) fs
    !! har_path harParams =
  Some (if isCompressed harParams && negb (needCompressed harParams)
        then PlainHar else exported harId).
Proof.
  unfold files_after, har_steps.
  destruct (isCompressed harParams && negb (needCompressed harParams)); simpl;
    apply lookup_insert_eq.
Qed.

(** C9 (as the code has it): when every call of [close] is fulfilled, the
    drain of each registered recording is carried out in registration order
    and ends by deleting the exported artifact.  At that point the file at
    the destination path is the artifact as the server exported it, except
    when the export is compressed (the content mode is "attach") and the
    path does not end in ".zip": then the artifact is saved under the path
    with ".tmp" appended and unzipped into the destination, which holds the
    plain HAR.  With a server that compresses as the source expects, the
    destination is a compressed archive exactly when its path ends in
    ".zip". *)
Theorem close_saves_har_by_extension s pre harId harParams post fs :
  _harRecorders s = pre ++ (harId, harParams) :: post →
  accepted reply s (teardown s) →
  let through := drained s pre ++ har_steps (harId, harParams) in
  let fs' := files_after exported keeps_zipFile through fs in
  (∃ rest, sent (close reply isSafeCloseError s).2 = sent s ++ through ++ rest) ∧
  last through = Some (ArtifactDelete harId) ∧
  fs' !! har_path harParams =
    Some (if isCompressed harParams && negb (needCompressed harParams)
          then PlainHar else exported harId) ∧
  (exported harId = server_form harParams →
   (fs' !! har_path harParams = Some ZipArchive ↔ needCompressed harParams = true)).
Proof.
  intros E Hacc. cbv zeta.
  destruct (close_accepted reply isSafeCloseError s Hacc) as [_ Hsent].
  split.
  { eexists. rewrite Hsent, (teardown_at_session _ _ _ _ _ E).
    by rewrite <-!app_assoc. }
  split.
  { unfold har_steps. rewrite app_comm_cons, !app_assoc. apply last_snoc. }
  unfold files_after. rewrite foldl_app.
  pose proof (files_after_har_steps harId harParams
                (foldl (write exported keeps_zipFile) fs (drained s pre))) as Hpath.
  unfold files_after in Hpath.
  split; [done |].
  intros Hserver. rewrite Hpath, Hserver. unfold server_form, isCompressed, needCompressed.
  destruct (Js.endsWith (har_path harParams) ".zip");
    destruct (bool_decide (har_content harParams = Some attach)); simpl;
    split; congruence.
Qed.

End HarFiles.

(** ** Properties of several [close()] calls in flight *)

Lemma issued_by_all_insert c pool : ∀ i old new,
  pool !! i = Some old →
  issued_by_all c (<[i:=new]> pool) + times_called c (issued old) =
  issued_by_all c pool + times_called c (issued new).
Proof.
  unfold issued_by_all.
  induction pool as [|x pool IH]; intros [|i] old new; simpl; try done.
  - intros [= ->]. lia.
  - intros Hi. specialize (IH i old new Hi). unfold fmap in *. lia.
Qed.

Section ConcurrentClose.

Variable reply : list Call → Call → option Error.
Variable isSafeCloseError : Error → bool.

Lemma start_inv s0 n : pool_inv reply s0 n (replicate n (start_close s0), s0).
Proof.
  repeat split; simpl.
  - apply length_replicate.
  - apply Forall_replicate. split; simpl; [apply prefix_nil | done].
  - intros c. unfold issued_by_all. rewrite fmap_replicate, sum_list_replicate.
    simpl. change (times_called c []) with 0. lia.
  - intros _. apply Forall_replicate. split; simpl; auto.
Qed.

Lemma turn_inv s0 n st i :
  pool_inv reply s0 n st → pool_inv reply s0 n (turn reply isSafeCloseError st i).
Proof.
  destruct st as [pool s]. intros Hinv.
  pose proof Hinv as (Hlen & Htrack & Hcount & Hacc).
  unfold turn. simpl in *.
  destruct (pool !! i) as [[done [|c rest] [r|]]|] eqn:Ei; try exact Hinv.
  pose proof (proj1 (Forall_lookup _ _) Htrack i _ Ei) as [Hpre Heq].
  simpl in *. specialize (Heq eq_refl).
  assert (∀ new s', issued new = done ++ [c] → sent s' = sent s ++ [c] →
    ∀ c', times_called c' (sent s') =
          times_called c' (sent s0) + issued_by_all c' (<[i:=new]> pool)) as Hcnt.
  { intros new s' Hnew Hs' c'.
    pose proof (issued_by_all_insert c' pool i _ new Ei) as Hins.
    rewrite Hnew in Hins. simpl in Hins. specialize (Hcount c').
    unfold times_called in *. rewrite Hs'.
    rewrite !count_occ_app in *. lia. }
  assert ((done ++ [c]) `prefix_of` teardown s0) as Hpre'.
  { exists rest. by rewrite <-Heq, <-app_assoc. }
  pose proof (call_sent reply c s) as Hsent.
  unfold call in *. destruct (reply (sent s) c) as [e|] eqn:Er; simpl in *.
  - split; [| split; [| split]]; simpl.
    + by rewrite length_insert.
    + apply Forall_insert; [done |]. split; simpl; [done |].
      by destruct (isSafeCloseError e).
    + intros c'. by apply (Hcnt _ (record_call c s)).
    + intros Hall. by rewrite Hall in Er.
  - assert (sent (server_effect c (record_call c s)) = sent s ++ [c]) as Hs'.
    { by destruct c. }
    split; [| split; [| split]]; simpl.
    + by rewrite length_insert.
    + apply Forall_insert; [done |]. split; simpl; [done |].
      intros _. by rewrite <-app_assoc.
    + intros c'. by apply Hcnt.
    + intros Hall. apply Forall_insert; [by apply Hacc |].
      split; simpl; [by rewrite <-app_assoc |].
      destruct rest; auto.
Qed.

Lemma close_concurrently_inv s0 n schedule :
  pool_inv reply s0 n (close_concurrently reply isSafeCloseError n schedule s0).
Proof.
  unfold close_concurrently.
  pose proof (start_inv s0 n) as Hinv. revert Hinv.
  generalize (replicate n (start_close s0), s0).
  induction schedule as [|i schedule IH]; intros st Hinv; simpl; [done |].
  by apply IH, turn_inv.
Qed.

(** C1 (as the code has it): [close] keeps no record of a close in
    progress, so each of [n] calls in flight runs the teardown itself.
    Under any schedule and whatever the collaborators answer, each caller
    has issued an initial part of the teardown and the context has been
    sent what the callers issued, counted with repetition.  When no call is
    rejected and every caller has finished, every caller has issued the
    whole teardown and returned normally: each call of the teardown was
    made [n] times. *)
Theorem concurrent_close_runs_teardown_per_caller n schedule s :
  let res := close_concurrently reply isSafeCloseError n schedule s in
  length res.1 = n ∧
  Forall (λ caller, issued caller `prefix_of` teardown s) res.1 ∧
  (∀ c, times_called c (sent res.2) =
        times_called c (sent s) + issued_by_all c res.1) ∧
  ((∀ h c, reply h c = None) → Forall finished res.1 →
   Forall (λ caller, issued caller = teardown s ∧
                     outcome caller = Some (Ok tt)) res.1 ∧
   ∀ c, times_called c (sent res.2) =
        times_called c (sent s) + n * times_called c (teardown s)).
Proof.
  destruct (close_concurrently_inv s n schedule) as (Hlen & Htrack & Hcount & Hacc).
  cbv zeta. split; [done |]. split.
  { eapply Forall_impl; [exact Htrack |]. by intros caller [? _]. }
  split; [done |]. intros Hall Hfin. specialize (Hacc Hall).
  assert (Forall (λ caller, issued caller = teardown s ∧
                            outcome caller = Some (Ok tt))
            (close_concurrently reply isSafeCloseError n schedule s).1) as Hdone.
  { rewrite Forall_forall in *. intros caller Hin.
    destruct (Hacc caller Hin) as [Heq [Hnone | [Hok Hnil]]].
    - by destruct (Hfin caller Hin).
    - split; [| done]. by rewrite Hnil, app_nil_r in Heq. }
  split; [done |]. intros c. rewrite Hcount. f_equal.
  unfold issued_by_all.
  rewrite (sum_list_fmap_same (times_called c (teardown s))), Hlen; [lia |].
  eapply Forall_impl; [exact Hdone |]. by intros caller [-> _].
Qed.

End ConcurrentClose.

(** ** Properties of [waitForEvent] *)

Module WaiterFacts.
Import Waiter.

Lemma deliver_cases w o :
  deliver w o = w ∨ ∃ r, settled (deliver w o) = Some r.
Proof.
  unfold deliver. destruct (disposed w); [by left |].
  destruct (settled w); [by left |].
  destruct (first_to_fire o (sources w)); [right; eauto | by left].
Qed.

Lemma run_settled os : ∀ w r, settled w = Some r → run w os = w.
Proof.
  unfold run. induction os as [|o os IH]; intros w r Hw; simpl; [done |].
  assert (deliver w o = w) as ->; [| by eapply IH].
  unfold deliver. rewrite Hw. by destruct (disposed w).
Qed.

(** A waiter that is still pending has not changed. *)
Lemma run_pending os : ∀ w, settled (run w os) = None → run w os = w.
Proof.
  unfold run. induction os as [|o os IH]; intros w Hw; simpl in *; [done |].
  destruct (deliver_cases w o) as [E | [r Hr]].
  - rewrite E in *. by apply IH.
  - pose proof (run_settled os _ _ Hr) as E. unfold run in E.
    rewrite E, Hr in Hw. done.
Qed.

Lemma run_app w os1 os2 : run w (os1 ++ os2) = run (run w os1) os2.
Proof. apply foldl_app. Qed.

Lemma first_to_fire_no_abort o srcs r :
  Forall (λ src, is_abort src = false) srcs →
  first_to_fire o srcs = Some r →
  ∀ reason, r ≠ Rejected (AbortedError reason).
Proof.
  induction 1 as [|src srcs Hsrc _ IH]; simpl; [done |].
  destruct (fires o src) as [r'|] eqn:E; [| done].
  intros [= <-] reason. destruct src, o; simpl in *; try done;
    by repeat case_match; simplify_eq.
Qed.

(** Without an abort source a waiter is never rejected as aborted. *)
Lemma run_no_abort os : ∀ w,
  Forall (λ src, is_abort src = false) (sources w) →
  (∀ reason, settled w ≠ Some (Rejected (AbortedError reason))) →
  ∀ reason, settled (run w os) ≠ Some (Rejected (AbortedError reason)).
Proof.
  unfold run. induction os as [|o os IH]; intros w Hsrc Hw; simpl; [done |].
  apply IH.
  - unfold deliver. destruct (disposed w); [done |].
    destruct (settled w); [done |].
    by destruct (first_to_fire o (sources w)).
  - unfold deliver. destruct (disposed w); [done |].
    destruct (settled w) eqn:Es; [by rewrite Es |].
    destruct (first_to_fire o (sources w)) eqn:Ef; [| by rewrite Es].
    simpl. intros reason [= ->].
    by eapply first_to_fire_no_abort.
Qed.

End WaiterFacts.

Section WaitForEvent.

Variable event : string.
Variable timeout : Z.
Variable predicate : option (JSValue → bool).

Lemma waitForEvent_sources :
  Waiter.sources (waitForEvent_waiter event timeout predicate) =
  Waiter.Deadline timeout (timeout_message event timeout) ::
  (if bool_decide (event ≠ Events_BrowserContext_Close)
   then [Waiter.AbortOn Events_BrowserContext_Close "Context closed"] else []) ++
  [Waiter.MatchOn event predicate].
Proof. unfold waitForEvent_waiter. by case_bool_decide. Qed.

Lemma waitForEvent_fresh :
  Waiter.settled (waitForEvent_waiter event timeout predicate) = None ∧
  Waiter.disposed (waitForEvent_waiter event timeout predicate) = false.
Proof. unfold waitForEvent_waiter. by case_bool_decide. Qed.

Lemma deliver_fresh o :
  Waiter.deliver (waitForEvent_waiter event timeout predicate) o =
  match Waiter.first_to_fire o (Waiter.sources (waitForEvent_waiter event timeout predicate)) with
  | Some r => {| Waiter.sources := []; Waiter.settled := Some r; Waiter.disposed := false |}
  | None => waitForEvent_waiter event timeout predicate
  end.
Proof.
  unfold Waiter.deliver. by destruct waitForEvent_fresh as [-> ->].
Qed.




(** C6 (as the code has it): while a [waitForEvent] for an event other
    than the close is pending, the close of the context rejects it with the
    "Context closed" error; an accepted reply emission of the awaited event that
    is dispatched before the close resolves it with the payload, and the
    close that follows changes nothing.  The abort listener is registered
    before the match listener (second and third, after the deadline): the
    two listen to different events, so it is the order of the emissions
    that decides. *)
Theorem waitForEvent_close_aborts_unless_matched_first :
  event ≠ Events_BrowserContext_Close →
  (∀ before payload later,
     waitForEvent event timeout predicate before = None →
     waitForEvent event timeout predicate
       (before ++ Waiter.Emitted Events_BrowserContext_Close payload :: later) =
     Some (Waiter.Rejected (Waiter.AbortedError "Context closed"))) ∧
  (∀ before payload closed later,
     waitForEvent event timeout predicate before = None →
     Waiter.qualifies predicate payload = true →
     waitForEvent event timeout predicate
       (before ++ Waiter.Emitted event payload ::
                  Waiter.Emitted Events_BrowserContext_Close closed :: later) =
     Some (Waiter.Resolved payload)) ∧
  Waiter.registered_at Waiter.is_abort (waitForEvent_waiter event timeout predicate) = Some 1 ∧
  Waiter.registered_at Waiter.is_match (waitForEvent_waiter event timeout predicate) = Some 2.
Proof.
  intros Hne.
  assert (∀ before o later r,
    waitForEvent event timeout predicate before = None →
    Waiter.first_to_fire o (Waiter.sources (waitForEvent_waiter event timeout predicate)) = Some r →
    waitForEvent event timeout predicate (before ++ o :: later) = Some r) as Hfire.
  { intros before o later r Hpend Hf. unfold waitForEvent in *.
    rewrite WaiterFacts.run_app, (WaiterFacts.run_pending _ _ Hpend).
    unfold Waiter.run. simpl. rewrite deliver_fresh, Hf.
    by erewrite (WaiterFacts.run_settled later). }
  split; [| split].
  - intros before payload later Hpend. apply Hfire; [done |].
    rewrite waitForEvent_sources, bool_decide_true by done. simpl.
    done.
  - intros before payload closed later Hpend Hacc. apply Hfire; [done |].
    rewrite waitForEvent_sources, bool_decide_true by done. simpl.
    rewrite bool_decide_false by done.
    by rewrite bool_decide_true, Hacc.
  - unfold Waiter.registered_at. rewrite waitForEvent_sources, bool_decide_true by done.
    done.
Qed.

End WaitForEvent.

Section WaitForClose.

Variable timeout : Z.
Variable predicate : option (JSValue → bool).

(** C10: a [waitForEvent] for the close event registers no abort source
    (only the deadline and the match), so it is never rejected as aborted;
    while it is pending, a close of the context that the predicate accepts
    resolves it with the payload of the close event. *)
Theorem waitForEvent_close_resolves_on_close :
  Waiter.sources (waitForEvent_waiter Events_BrowserContext_Close timeout predicate) =
    [Waiter.Deadline timeout (timeout_message Events_BrowserContext_Close timeout);
     Waiter.MatchOn Events_BrowserContext_Close predicate] ∧
  (∀ occurrences reason,
     waitForEvent Events_BrowserContext_Close timeout predicate occurrences ≠
     Some (Waiter.Rejected (Waiter.AbortedError reason))) ∧
  (∀ before payload later,
     waitForEvent Events_BrowserContext_Close timeout predicate before = None →
     Waiter.qualifies predicate payload = true →
     waitForEvent Events_BrowserContext_Close timeout predicate
       (before ++ Waiter.Emitted Events_BrowserContext_Close payload :: later) =
     Some (Waiter.Resolved payload)).
Proof.
  pose proof (waitForEvent_sources Events_BrowserContext_Close timeout predicate) as Hsrc.
  rewrite bool_decide_false in Hsrc by (by intros []). cbn [app] in Hsrc.
  split; [done |]. split.
  - intros occurrences. unfold waitForEvent.
    apply WaiterFacts.run_no_abort.
    + rewrite Hsrc. by repeat constructor.
    + intros reason.
      by destruct (waitForEvent_fresh Events_BrowserContext_Close timeout predicate)
        as [-> _].
  - intros before payload later Hpend Hacc. unfold waitForEvent in *.
    rewrite WaiterFacts.run_app, (WaiterFacts.run_pending _ _ Hpend).
    unfold Waiter.run. simpl. rewrite deliver_fresh, Hsrc. simpl. rewrite Hacc.
    by erewrite (WaiterFacts.run_settled later).
Qed.

End WaitForClose.

(** ** More properties of the route chain *)

Section MoreRouteChain.

Variable urlMatches : option string → string → URLMatch → bool.
Variable reply : list Call → Call → option Error.
Variable during_handle : RouteHandler → Route → Store → list ChainAction * Result bool.

Lemma call_interception c s :
  interception (call reply c s).2 =
  match c, reply (sent s) c with
  | SetNetworkInterceptionEnabled b, None => b
  | _, _ => interception s
  end.
Proof. unfold call. destruct c; by destruct (reply (sent s) _). Qed.

Lemma unroute_routes url handler s :
  _routes (unroute reply url handler s).2 = filter (survives url handler) (_routes s).
Proof.
  unfold unroute, _disableInterception. simpl. case_decide; [| done].
  by destruct (call_frame reply (SetNetworkInterceptionEnabled false)
                 (set_routes (filter (survives url handler)) s)) as (-> & _).
Qed.

(** X1: whatever the server answers, [unroute] removes from the chain the
    entries registered under that URL matcher (all of them when no handler
    is given, those with that handler otherwise) and nothing else; the
    entries that stay keep their order. *)
Theorem unroute_removes_exactly url handler s rh :
  (rh ∈ _routes (unroute reply url handler s).2 ↔
   rh ∈ _routes s ∧
   ¬ (rh_url rh = url ∧ (handler = None ∨ handler = Some (rh_handler rh)))) ∧
  _routes (unroute reply url handler s).2 `sublist_of` _routes s.
Proof.
  rewrite unroute_routes. split; [| apply sublist_filter].
  rewrite list_elem_of_filter. unfold survives. split.
  - intros [Hs Hin]. split; [done |]. intros [Hu Hh].
    destruct Hs as [Hs | Hs]; [done |].
    destruct handler as [h|]; [| done]. destruct Hh as [[=] | [= ->]]. done.
  - intros [Hin Hn]. split; [| done].
    destruct (decide (rh_url rh = url)) as [Hu | Hu]; [| by left]. right.
    destruct handler as [h|]; [| by apply Hn; auto].
    intros Hh. apply Hn. split; [done |]. right. by rewrite Hh.
Qed.

(** X2: a context without routes answers every [unroute] with a request to
    disable interception: a sequence of fulfilled [unroute] calls sends as
    many such requests as there are calls. *)
Theorem unroute_without_routes_disables_each_time calls : ∀ s s',
  _routes s = [] →
  Forall is_unroute calls →
  run_calls reply calls s = (Ok tt, s') →
  _routes s' = [] ∧
  sent s' = sent s ++ replicate (length calls) (SetNetworkInterceptionEnabled false).
Proof.
  induction calls as [|c calls IH]; intros s s' Hempty Hall; simpl.
  - munfold. intros [= <-]. by rewrite app_nil_r.
  - apply Forall_cons in Hall as [Hc Hall]. destruct c as [|url handler]; [done |].
    munfold. simpl.
    destruct (unroute reply url handler s) as [[[]|e] s1] eqn:E; [| done].
    intros Hrest.
    assert (_routes s1 = [] ∧ sent s1 = sent s ++ [SetNetworkInterceptionEnabled false])
      as [Hr1 Hs1].
    { unfold unroute, _disableInterception in E. simpl in E. rewrite Hempty in E.
      simpl in E. apply call_Ok in E. subst s1. simpl. by rewrite Hempty. }
    destruct (IH s1 s' Hr1 Hall Hrest) as [Hr Hs]. split; [done |].
    by rewrite Hs, Hs1, <-app_assoc.
Qed.

(** X3: [route] puts its entry in the chain before it asks the server to
    enable interception.  When that request is rejected the error reaches
    the caller, the entry stays registered and interception stays as it
    was; the next [route] finds a chain of two and does not ask again. *)
Theorem rejected_enable_is_not_retried url handler times url' handler' times' e s :
  _routes s = [] →
  reply (sent s) (SetNetworkInterceptionEnabled true) = Some e →
  (route reply url handler times s).1 = Throw e ∧
  length (_routes (route reply url handler times s).2) = 1 ∧
  interception (route reply url handler times s).2 = interception s ∧
  (route reply url' handler' times' (route reply url handler times s).2).1 = Ok tt ∧
  length (_routes (route reply url' handler' times' (route reply url handler times s).2).2) = 2 ∧
  sent (route reply url' handler' times' (route reply url handler times s).2).2 =
    sent s ++ [SetNetworkInterceptionEnabled true] ∧
  interception (route reply url' handler' times' (route reply url handler times s).2).2 =
    interception s.
Proof.
  intros Hempty Hrej.
  assert (∃ rh, route reply url handler times s =
    (Throw e, record_call (SetNetworkInterceptionEnabled true)
                (set_routes (cons rh) (set_next_object (S (next_object s)) s))))
    as [rh ->].
  { eexists. unfold route. simpl. rewrite Hempty. simpl.
    unfold call. simpl. by rewrite Hrej. }
  simpl. rewrite Hempty. simpl. repeat split; try done.
Qed.

Lemma run_call_flag_covers c s :
  (∀ h c, reply h c = None) → flag_covers s → flag_covers (run_call reply c s).2.
Proof.
  intros Hall [Hwf Hflag]. split; [by apply run_call_wf |].
  destruct c as [url handler times|url handler]; simpl.
  - unfold route. simpl. case_decide as Hlen.
    + intros _. rewrite call_interception. simpl. by rewrite Hall.
    + intros _. simpl. apply Hflag. by destruct (_routes s).
  - unfold unroute, _disableInterception. simpl. case_decide as Hlen.
    + destruct (call_frame reply (SetNetworkInterceptionEnabled false)
                  (set_routes (filter (survives url handler)) s)) as (-> & _).
      simpl. intros Hne. by apply nil_length_inv in Hlen.
    + simpl. intros Hne. apply Hflag. intros E. by rewrite E in Hne.
Qed.

Lemma apply_calls_flag_covers actions : ∀ s,
  (∀ h c, reply h c = None) → calls_only actions → flag_covers s →
  flag_covers (foldl (apply_action reply) s actions).
Proof.
  induction actions as [|a actions IH]; intros s Hall Hcalls Hs; simpl; [done |].
  apply Forall_cons in Hcalls as [Ha Hcalls]. destruct a as [c| |]; try done.
  apply IH; [done | done |]. simpl. by apply run_call_flag_covers.
Qed.

Lemma chain_inv_flag_covers s : chain_inv s → flag_covers s.
Proof. intros (Hl & Hb & Hi). split; [by split |]. apply Hi. Qed.

Lemma splice_flag_covers rh s : flag_covers s → flag_covers (splice_handler rh s).
Proof.
  intros [Hwf Hflag]. split; [by apply splice_handler_wf |].
  simpl. intros Hne. apply Hflag. intros E. rewrite E in Hne.
  by destruct (Js.indexOf same_object rh []).
Qed.

Lemma after_handle_chain_inv s :
  (∀ h c, reply h c = None) → flag_covers s → chain_inv (after_handle reply s).
Proof.
  intros Hall [[Hl Hb] Hflag]. unfold after_handle. case_bool_decide as Hlen.
  - apply nil_length_inv in Hlen. unfold chain_inv.
    rewrite call_interception. simpl. rewrite Hall.
    destruct (call_frame reply (SetNetworkInterceptionEnabled false) s) as (-> & -> & _).
    rewrite Hlen. repeat split; try done; constructor.
  - assert (_routes s ≠ []) as Hne by (intros E; by rewrite E in Hlen).
    repeat split; auto.
Qed.

Lemma dispatch_chain_inv route routeHandlers : ∀ s,
  (∀ h c, reply h c = None) →
  (∀ rh route s, calls_only (during_handle rh route s).1) →
  chain_inv s →
  (dispatch urlMatches reply during_handle route routeHandlers s).1 = Ok tt →
  chain_inv (dispatch urlMatches reply during_handle route routeHandlers s).2.
Proof.
  induction routeHandlers as [|rh rest IH]; intros s Hall Hcalls Hinv.
  - simpl. intros _. destruct Hinv as (Hl & Hb & Hi). unfold chain_inv.
    rewrite call_interception. simpl.
    by destruct (call_frame reply (InnerContinue (route_object route)) s) as (-> & -> & _).
  - destruct (matches urlMatches rh (route_url route)) eqn:Em.
    2: { simpl. rewrite Em. simpl. by apply IH. }
    rewrite dispatch_match by done.
    set (s1 := if willExpire rh s then splice_handler rh s else s).
    assert (flag_covers s1) as Hs1.
    { unfold s1. destruct (willExpire rh s);
        [apply splice_flag_covers |]; by apply chain_inv_flag_covers. }
    assert (flag_covers (handle reply during_handle rh route s1).2) as Hs2.
    { unfold handle. specialize (Hcalls rh route (count_use rh s1)).
      destruct (during_handle rh route (count_use rh s1)) as [actions decision].
      simpl in *. apply apply_calls_flag_covers; [done | done |].
      destruct Hs1 as [[Hl Hb] Hflag]. by repeat split. }
    destruct (handle reply during_handle rh route s1) as [[handled|e] s2]; [| done].
    simpl in Hs2. pose proof (after_handle_chain_inv s2 Hall Hs2) as Hs3.
    destruct handled; [done |]. by apply IH.
Qed.

(** X4: when the server fulfils what it is asked and nothing but [route]
    and [unroute] calls touch the chain while handlers run, a dispatch that
    returns normally leaves the chain newest first and the interception
    flag on exactly when the chain is non-empty; in particular the dispatch
    that uses up the last route turns interception off. *)
Theorem onRoute_keeps_interception_in_sync route s :
  (∀ h c, reply h c = None) →
  (∀ rh route s, calls_only (during_handle rh route s).1) →
  chain_inv s →
  (_onRoute urlMatches reply during_handle route s).1 = Ok tt →
  lifo (_routes (_onRoute urlMatches reply during_handle route s).2) ∧
  (interception (_onRoute urlMatches reply during_handle route s).2 = true ↔
   _routes (_onRoute urlMatches reply during_handle route s).2 ≠ []).
Proof.
  intros Hall Hcalls Hinv. unfold _onRoute. munfold. simpl. intros Hok.
  by destruct (dispatch_chain_inv route (_routes s) s Hall Hcalls Hinv Hok)
    as (Hl & _ & Hi).
Qed.

Lemma indexOf_absent rh chain :
  rh_object rh ∉ rh_object <$> chain → Js.indexOf same_object rh chain = None.
Proof.
  induction chain as [|y ys IH]; simpl; [done |].
  rewrite not_elem_of_cons. intros [Hy Hys].
  unfold same_object at 1. rewrite bool_decide_false by done.
  by rewrite IH.
Qed.

(** X5: when the iteration reaches a matching handler on its expiring use
    that is no longer in the live chain (its route was removed while an
    earlier handler ran), the splice removes the last entry of the live
    chain instead, and the handler is invoked. *)
Theorem expiring_handler_already_removed_drops_last route rh rest s :
  chain_wf s →
  matches urlMatches rh (route_url route) = true →
  willExpire rh s = true →
  rh_object rh ∉ rh_object <$> _routes s →
  ∃ ev later,
    handle_log (dispatch urlMatches reply during_handle route (rh :: rest) s).2 =
      handle_log s ++ ev :: later ∧
    he_handler ev = rh ∧
    he_live ev = removelast (_routes s).
Proof.
  intros Hwf Hm Hexp Habs. rewrite dispatch_match by done. rewrite Hexp.
  pose proof (handle_spec reply during_handle rh route (splice_handler rh s))
    as [Hlog Hwf2]. simpl in Hlog, Hwf2.
  rewrite (indexOf_absent rh (_routes s) Habs) in Hlog. simpl in Hlog.
  specialize (Hwf2 (splice_handler_wf rh s Hwf)).
  destruct (handle reply during_handle rh route (splice_handler rh s))
    as [[handled|e] s2]; simpl in Hlog, Hwf2.
  - destruct (after_handle_frame reply s2) as [Hlog3 Hwf3].
    destruct handled.
    + eexists _, []. simpl. rewrite Hlog3, Hlog. done.
    + destruct (dispatch_spec urlMatches reply during_handle route rest
                  (after_handle reply s2) (Hwf3 Hwf2)) as (invoked & _ & Hl & _).
      eexists _, invoked. rewrite Hl, Hlog3, Hlog, <-app_assoc. done.
  - eexists _, []. simpl. rewrite Hlog. done.
Qed.

(** X6: [_onRoute] fails only through a handler that throws or through the
    final continue: when no handler throws and the continue is fulfilled it
    returns normally, whatever the server answers to the requests to
    disable interception made on the way. *)
Theorem onRoute_fails_only_through_handler_or_continue route s :
  (∀ rh route s e, (during_handle rh route s).2 ≠ Throw e) →
  (∀ h, reply h (InnerContinue (route_object route)) = None) →
  (_onRoute urlMatches reply during_handle route s).1 = Ok tt.
Proof.
  intros Hno Hcont. unfold _onRoute. munfold. simpl.
  generalize (_routes s) at 1. intros routeHandlers. revert s.
  induction routeHandlers as [|rh rest IH]; intros s.
  - simpl. unfold call. by rewrite Hcont.
  - destruct (matches urlMatches rh (route_url route)) eqn:Em.
    2: { simpl. rewrite Em. simpl. apply IH. }
    rewrite dispatch_match by done.
    set (s1 := if willExpire rh s then splice_handler rh s else s).
    unfold handle. specialize (Hno rh route (count_use rh s1)).
    destruct (during_handle rh route (count_use rh s1)) as [actions [handled|e]];
      simpl in *; [| by destruct (Hno e)].
    destruct handled; [done | apply IH].
Qed.

End MoreRouteChain.

Lemma accepted_app_first reply s cs1 cs2 :
  accepted reply s (cs1 ++ cs2) → accepted reply s cs1.
Proof.
  intros Hacc done c rest ->. apply (Hacc done c (rest ++ cs2)).
  by rewrite <-app_assoc.
Qed.

(** ** More properties of bindings and of [close] *)

Lemma elem_of_flat_map {A B} (f : A → list B) (l : list A) (y : B) :
  y ∈ flat_map f l ↔ ∃ x, x ∈ l ∧ y ∈ f x.
Proof.
  induction l as [|a l IH]; simpl.
  - split; [by intros ?%elem_of_nil | by intros (x & ?%elem_of_nil & _)].
  - rewrite elem_of_app, IH. split.
    + intros [Hy | (x & Hx & Hy)].
      * exists a. split; [by left | done].
      * exists x. split; [by right | done].
    + intros (x & [-> | Hx]%elem_of_cons & Hy); [by left |]. right. by exists x.
Qed.

Lemma elem_of_har_steps c harId harParams :
  c ∈ har_steps (harId, harParams) ↔
  c = HarExport harId ∨ c = ArtifactDelete harId ∨
  (isCompressed harParams && negb (needCompressed harParams) = true ∧
   (c = ArtifactSaveAs harId (har_path harParams +:+ ".tmp") ∨
    c = HarUnzip (har_path harParams +:+ ".tmp") (har_path harParams))) ∨
  (isCompressed harParams && negb (needCompressed harParams) = false ∧
   c = ArtifactSaveAs harId (har_path harParams)).
Proof.
  unfold har_steps.
  destruct (isCompressed harParams && negb (needCompressed harParams));
    simpl; rewrite !elem_of_cons, elem_of_nil; intuition congruence.
Qed.

Lemma unzip_condition harParams :
  isCompressed harParams && negb (needCompressed harParams) = true ↔
  har_content harParams = Some attach ∧ Js.endsWith (har_path harParams) ".zip" = false.
Proof.
  unfold isCompressed, needCompressed.
  destruct (Js.endsWith (har_path harParams) ".zip"); case_bool_decide; simpl;
    intuition congruence.
Qed.

Lemma elem_of_teardown c s :
  c ∈ teardown s ↔
  (_browserType s = true ∧ c = OnWillCloseContext) ∨
  (∃ recorder, recorder ∈ _harRecorders s ∧ c ∈ har_steps recorder) ∨
  c = ChannelClose ∨ c = AwaitClosedPromise.
Proof.
  unfold teardown. rewrite !elem_of_app, elem_of_flat_map, !elem_of_cons, elem_of_nil.
  destruct (_browserType s); rewrite ?elem_of_cons, elem_of_nil; intuition congruence.
Qed.

Section MoreClose.

Variable reply : list Call → Call → option Error.
Variable isSafeCloseError : Error → bool.

(** X7: [exposeBinding] writes the table only after the channel has
    accepted the request: when the request is rejected the error reaches
    the caller and the table is as before, so a function registered earlier
    under that name stays the one that binding calls invoke. *)
Theorem rejected_exposeBinding_keeps_table name callback handle e s :
  reply (sent s) (ExposeBinding name handle) = Some e →
  (exposeBinding reply name callback handle s).1 = Throw e ∧
  _bindings (exposeBinding reply name callback handle s).2 = _bindings s ∧
  ∀ bindingCall func,
    _bindings s !! bc_name bindingCall = Some func →
    sent (_onBinding reply bindingCall (exposeBinding reply name callback handle s).2).2 =
      sent (exposeBinding reply name callback handle s).2 ++
      [InvokeBinding (bf_object func) (bc_args bindingCall); response bindingCall func].
Proof.
  intros Hrej.
  assert (exposeBinding reply name callback handle s =
          (Throw e, record_call (ExposeBinding name handle) s)) as ->.
  { unfold exposeBinding. munfold. unfold call. by rewrite Hrej. }
  simpl. split; [done |]. split; [done |].
  intros bindingCall func Hf.
  by destruct (onBinding_known reply bindingCall func
                 (record_call (ExposeBinding name handle) s) Hf).
Qed.

Lemma accepted_snoc s cs c :
  accepted reply s cs → reply (sent s ++ cs) c = None → accepted reply s (cs ++ [c]).
Proof.
  intros Hacc Hc done c' rest E.
  destruct rest as [|r rest _] using rev_ind.
  - apply app_inj_tail in E as [-> ->]. done.
  - rewrite app_comm_cons, app_assoc in E. apply app_inj_tail in E as [E _].
    by apply (Hacc done c' rest).
Qed.

(** The calls of a list are all fulfilled, or there is a first one that is
    rejected. *)
Lemma accepted_or_rejected s cs :
  accepted reply s cs ∨
  ∃ done c rest e, cs = done ++ c :: rest ∧ accepted reply s done ∧
                   reply (sent s ++ done) c = Some e.
Proof.
  induction cs as [|c cs IH] using rev_ind.
  - left. intros done c rest E. by destruct done.
  - destruct IH as [Hacc | (done & c' & rest & e & -> & Hacc & Hrej)].
    + destruct (reply (sent s ++ cs) c) as [e|] eqn:Ec.
      * right. exists cs, c, [], e. done.
      * left. by apply accepted_snoc.
    + right. exists done, c', (rest ++ [c]), e. by rewrite <-app_assoc.
Qed.

Lemma close_issues_prefix s :
  ∃ issued, sent (close reply isSafeCloseError s).2 = sent s ++ issued ∧
            issued `prefix_of` teardown s.
Proof.
  destruct (accepted_or_rejected s (teardown s))
    as [Hacc | (done & c & rest & e & Ht & Hacc & Hrej)].
  - destruct (close_accepted reply isSafeCloseError s Hacc) as [_ H2].
    exists (teardown s). by split.
  - destruct (close_stops_at_rejection reply isSafeCloseError s done c rest e Ht Hacc Hrej)
      as [_ H2].
    exists (done ++ [c]). split; [done |]. exists rest. by rewrite Ht, <-app_assoc.
Qed.

(** X8: [close] issues an initial part of its teardown and nothing else.
    It throws only an error with which one of these calls was rejected, and
    never one that [isSafeCloseError] accepts; when it throws, the rejected
    call is the last it made. *)
Theorem close_throws_only_unsafe_rejections s :
  (∃ issued, sent (close reply isSafeCloseError s).2 = sent s ++ issued ∧
             issued `prefix_of` teardown s) ∧
  ∀ e, (close reply isSafeCloseError s).1 = Throw e →
       isSafeCloseError e = false ∧
       ∃ done c, sent (close reply isSafeCloseError s).2 = sent s ++ done ++ [c] ∧
                 reply (sent s ++ done) c = Some e.
Proof.
  split; [apply close_issues_prefix |].
  destruct (accepted_or_rejected s (teardown s))
    as [Hacc | (done & c & rest & e & Ht & Hacc & Hrej)].
  - destruct (close_accepted reply isSafeCloseError s Hacc) as [H1 H2].
    intros e. by rewrite H1.
  - destruct (close_stops_at_rejection reply isSafeCloseError s done c rest e Ht Hacc Hrej)
      as [H1 H2].
    intros e'. rewrite H1. destruct (isSafeCloseError e) eqn:Es; [done |].
    intros [= <-]. split; [done |]. by exists done, c.
Qed.

(** X9: [close] unzips a recording exactly when its content mode is
    "attach" and its path does not end in ".zip": every [harUnzip] it asks
    for is that of such a recording, from the path with ".tmp" appended
    into the path; and when no call is rejected, every such recording is
    unzipped, and no other recording is saved anywhere but at its path. *)
Theorem close_unzips_attached_non_zip_only s :
  (∀ issued zipFile harFile,
     sent (close reply isSafeCloseError s).2 = sent s ++ issued →
     HarUnzip zipFile harFile ∈ issued →
     ∃ harId harParams,
       (harId, harParams) ∈ _harRecorders s ∧
       har_content harParams = Some attach ∧
       Js.endsWith (har_path harParams) ".zip" = false ∧
       zipFile = har_path harParams +:+ ".tmp" ∧ harFile = har_path harParams) ∧
  (accepted reply s (teardown s) →
   ∀ harId harParams,
     (harId, harParams) ∈ _harRecorders s →
     if bool_decide (har_content harParams = Some attach)
        && negb (Js.endsWith (har_path harParams) ".zip")
     then HarUnzip (har_path harParams +:+ ".tmp") (har_path harParams)
            ∈ sent (close reply isSafeCloseError s).2
     else ArtifactSaveAs harId (har_path harParams)
            ∈ sent (close reply isSafeCloseError s).2).
Proof.
  split.
  - intros issued zipFile harFile Hsent Hin.
    destruct (close_issues_prefix s) as (issued' & Hs' & Hpre).
    rewrite Hs' in Hsent. apply app_inv_head in Hsent. subst issued'.
    assert (HarUnzip zipFile harFile ∈ teardown s) as Ht.
    { destruct Hpre as [k ->]. apply elem_of_app. by left. }
    apply elem_of_teardown in Ht as [[_ [=]] | [([harId harParams] & Hr & Hc) | [[=] | [=]]]].
    apply elem_of_har_steps in Hc
      as [[=] | [[=] | [[Hz [[=] | [= -> ->]]] | [_ [=]]]]].
    apply unzip_condition in Hz as [Ha Hz]. by exists harId, harParams.
  - intros Hacc harId harParams Hr.
    destruct (close_accepted reply isSafeCloseError s Hacc) as [_ ->].
    pose proof (unzip_condition harParams) as Hz.
    assert (isCompressed harParams && negb (needCompressed harParams) =
            bool_decide (har_content harParams = Some attach)
            && negb (Js.endsWith (har_path harParams) ".zip")) as Heq.
    { unfold isCompressed, needCompressed.
      by destruct (Js.endsWith (har_path harParams) ".zip"), (bool_decide _). }
    rewrite <-Heq.
    destruct (isCompressed harParams && negb (needCompressed harParams)) eqn:E;
      apply elem_of_app; right; apply elem_of_teardown; right; left;
      exists (harId, harParams); (split; [done |]);
      apply elem_of_har_steps; rewrite E; auto 10.
Qed.

Lemma call_tables c s :
  _routes (call reply c s).2 = _routes s ∧
  _bindings (call reply c s).2 = _bindings s ∧
  _harRecorders (call reply c s).2 = _harRecorders s ∧
  _browserType (call reply c s).2 = _browserType s.
Proof. unfold call. destruct (reply (sent s) c); by destruct c. Qed.

Lemma perform_tables cs : ∀ s,
  _routes (perform reply cs s).2 = _routes s ∧
  _bindings (perform reply cs s).2 = _bindings s ∧
  _harRecorders (perform reply cs s).2 = _harRecorders s ∧
  _browserType (perform reply cs s).2 = _browserType s.
Proof.
  induction cs as [|c cs IH]; intros s; simpl; [done |]. munfold.
  destruct (call_tables c s) as (H1 & H2 & H3 & H4).
  destruct (call reply c s) as [[[]|e] s1]; simpl in *; [| done].
  destruct (IH s1) as (-> & -> & -> & ->). done.
Qed.

(** X10: [close] leaves the routes, the bindings and the recorders of the
    context as they were, whatever happens: nothing is unregistered.  So a
    second [close], made after the first has returned, has the same
    teardown before it, and when no call is rejected it goes through all of
    it again. *)
Theorem close_unregisters_nothing s :
  _routes (close reply isSafeCloseError s).2 = _routes s ∧
  _bindings (close reply isSafeCloseError s).2 = _bindings s ∧
  _harRecorders (close reply isSafeCloseError s).2 = _harRecorders s ∧
  teardown (close reply isSafeCloseError s).2 = teardown s ∧
  (accepted reply s (teardown s ++ teardown s) →
   sent (close reply isSafeCloseError (close reply isSafeCloseError s).2).2 =
     sent s ++ teardown s ++ teardown s).
Proof.
  assert (_routes (close reply isSafeCloseError s).2 = _routes s ∧
          _bindings (close reply isSafeCloseError s).2 = _bindings s ∧
          _harRecorders (close reply isSafeCloseError s).2 = _harRecorders s ∧
          _browserType (close reply isSafeCloseError s).2 = _browserType s)
    as (H1 & H2 & H3 & H4).
  { rewrite close_performs_teardown. unfold try_catch.
    pose proof (perform_tables (teardown s) s) as H.
    destruct (perform reply (teardown s) s) as [[[]|e] s1]; simpl in *; [done |].
    unfold on_close_error. munfold. by destruct (isSafeCloseError e). }
  assert (teardown (close reply isSafeCloseError s).2 = teardown s) as Ht.
  { unfold teardown. by rewrite H3, H4. }
  split; [done |]. split; [done |]. split; [done |]. split; [done |].
  intros Hacc.
  pose proof (accepted_app_first reply s (teardown s) (teardown s) Hacc) as Hacc1.
  destruct (close_accepted reply isSafeCloseError s Hacc1) as [_ Hs1].
  assert (accepted reply (close reply isSafeCloseError s).2
            (teardown (close reply isSafeCloseError s).2)) as Hacc2.
  { rewrite Ht. intros done c rest E. rewrite Hs1, <-app_assoc.
    apply (Hacc (teardown s ++ done) c rest). rewrite <-app_assoc. by f_equal. }
  destruct (close_accepted reply isSafeCloseError _ Hacc2) as [_ ->].
  by rewrite Ht, Hs1, <-app_assoc.
Qed.

End MoreClose.

(** ** Properties of the recorders *)

Module JsMapFacts.

Lemma get_set_eq {V} key (value : V) m : JsMap.get key (JsMap.set key value m) = Some value.
Proof.
  induction m as [|[k v] m IH]; simpl.
  - by rewrite decide_True.
  - destruct (decide (k = key)) as [->|Hne]; simpl.
    + by rewrite decide_True.
    + by rewrite decide_False.
Qed.

Lemma get_set_ne {V} key key' (value : V) m :
  key' ≠ key → JsMap.get key' (JsMap.set key value m) = JsMap.get key' m.
Proof.
  intros Hne. induction m as [|[k v] m IH]; simpl.
  - by rewrite decide_False.
  - destruct (decide (k = key)) as [->|Hk]; simpl.
    + by rewrite !decide_False.
    + by rewrite IH.
Qed.

Lemma keys_set {V} key (value : V) m :
  (JsMap.set key value m).*1 =
  if bool_decide (key ∈ m.*1) then m.*1 else m.*1 ++ [key].
Proof.
  induction m as [|[k v] m IH]; [done |].
  cbn [JsMap.set]. rewrite (fmap_cons fst (k, v) m). cbn [fst].
  destruct (decide (k = key)) as [->|Hk].
  - rewrite bool_decide_true; [done | by left].
  - rewrite fmap_cons, IH. cbn [fst]. case_bool_decide as Hin.
    + rewrite bool_decide_true; [done | by right].
    + rewrite bool_decide_false; [done |].
      rewrite not_elem_of_cons. by split.
Qed.

Lemma set_NoDup {V} key (value : V) m : NoDup m.*1 → NoDup (JsMap.set key value m).*1.
Proof.
  intros Hnd. rewrite keys_set. case_bool_decide as Hin; [done |].
  apply NoDup_app. split; [done |]. split; [| apply NoDup_singleton].
  intros x Hx ->%list_elem_of_singleton. done.
Qed.

Lemma set_elem {V} key (value : V) m :
  ∃ pre post, JsMap.set key value m = pre ++ (key, value) :: post.
Proof.
  induction m as [|[k v] m (pre & post & IH)]; simpl.
  - by exists [], [].
  - destruct (decide (k = key)) as [->|Hk].
    + by exists [], m.
    + exists ((k, v) :: pre), post. by rewrite IH.
Qed.

End JsMapFacts.

Section Recorders.

Variable reply : list Call → Call → option Error.
Variable isSafeCloseError : Error → bool.

(** X11: [_recordIntoHAR] registers the recording under the id the server
    gave, with the path it was given and the content mode "attach".  The
    table behaves as a map in insertion order: the entry can be read back,
    the entries under other ids are as before, an id that was registered
    keeps its place and a new one goes last, and ids stay distinct.  When
    the server rejects [harStart] nothing changes. *)
Theorem recordIntoHAR_registers_attach har harStart s :
  match harStart with
  | Throw e => _recordIntoHAR har harStart s = (Throw e, s)
  | Ok harId =>
      (_recordIntoHAR har harStart s).1 = Ok tt ∧
      JsMap.get harId (_harRecorders (_recordIntoHAR har harStart s).2) =
        Some {| har_path := har; har_content := Some attach |} ∧
      (∀ other, other ≠ harId →
         JsMap.get other (_harRecorders (_recordIntoHAR har harStart s).2) =
         JsMap.get other (_harRecorders s)) ∧
      (_harRecorders (_recordIntoHAR har harStart s).2).*1 =
        (if bool_decide (harId ∈ (_harRecorders s).*1)
         then (_harRecorders s).*1 else (_harRecorders s).*1 ++ [harId]) ∧
      (NoDup (_harRecorders s).*1 →
       NoDup (_harRecorders (_recordIntoHAR har harStart s).2).*1)
  end.
Proof.
  destruct harStart as [harId|e]; [| done]. simpl.
  split; [done |]. split; [apply JsMapFacts.get_set_eq |].
  split; [intros other Hne; by apply JsMapFacts.get_set_ne |].
  split; [apply JsMapFacts.keys_set | apply JsMapFacts.set_NoDup].
Qed.

(** X12: [routeFromHAR] with [update] only records: it adds no route and
    leaves interception as it is.  At [close] (when no call is
    rejected) the recording is exported, saved and deleted; it is saved at
    the given path when that ends in ".zip", and otherwise under ".tmp" and
    unzipped into the given path. *)
Theorem routeFromHAR_update_records_and_close_unzips har harId addContextRoute s :
  (routeFromHAR har true (Ok harId) addContextRoute s).1 = Ok tt ∧
  _routes (routeFromHAR har true (Ok harId) addContextRoute s).2 = _routes s ∧
  interception (routeFromHAR har true (Ok harId) addContextRoute s).2 = interception s ∧
  (accepted reply (routeFromHAR har true (Ok harId) addContextRoute s).2
     (teardown (routeFromHAR har true (Ok harId) addContextRoute s).2) →
   ∃ before after,
     sent (close reply isSafeCloseError
             (routeFromHAR har true (Ok harId) addContextRoute s).2).2 =
     sent s ++ before ++ update_drain harId har ++ after).
Proof.
  simpl. split; [done |]. split; [done |]. split; [done |].
  intros Hacc.
  destruct (close_accepted reply isSafeCloseError _ Hacc) as [_ ->]. simpl.
  destruct (JsMapFacts.set_elem harId {| har_path := har; har_content := Some attach |}
              (_harRecorders s)) as (pre & post & E).
  rewrite (teardown_at_session
             (set_harRecorders
                (JsMap.set harId {| har_path := har; har_content := Some attach |}) s)
             pre harId {| har_path := har; har_content := Some attach |} post E).
  eexists _, _. f_equal. f_equal. f_equal.
  unfold har_steps, update_drain, isCompressed, needCompressed. simpl.
  by destruct (Js.endsWith har ".zip").
Qed.

(** X21: the recording asked for with the [recordHar] option is registered
    by [_setBrowserType] under the empty id, with the path and the content
    mode of the option as they are.  On a context that records nothing
    else, a [close] whose calls are all fulfilled runs the hook of the
    browser type if it has one, drains that recording if there is one, and
    closes the channel: without the option nothing is exported. *)
Theorem setBrowserType_recording_is_drained_at_close hook recordHar s :
  _harRecorders s = [] →
  accepted reply (_setBrowserType hook recordHar s)
    (teardown (_setBrowserType hook recordHar s)) →
  sent (close reply isSafeCloseError (_setBrowserType hook recordHar s)).2 =
    sent s ++ (if hook then [OnWillCloseContext] else []) ++
    from_option (λ p, har_steps ("", p)) [] recordHar ++
    [ChannelClose; AwaitClosedPromise].
Proof.
  intros Hempty Hacc.
  destruct (close_accepted reply isSafeCloseError _ Hacc) as [_ ->].
  unfold teardown, _setBrowserType.
  destruct recordHar as [[path content]|]; simpl; rewrite Hempty; simpl.
  - by rewrite app_nil_r.
  - done.
Qed.

End Recorders.

(** ** Properties of the preparation of context parameters *)

(** X13: without options [prepareRecordHarOptions] gives no result.  With
    options it gives one that keeps the path and the mode; a content mode
    that is given wins over [omitContent], which counts only without one; a
    URL filter goes either into the glob field or into the two
    regular-expression fields, never into both, and can be read back from
    them. *)
Theorem prepareRecordHarOptions_content_and_filter options :
  prepareRecordHarOptions None = None ∧
  ∃ out,
    prepareRecordHarOptions (Some options) = Some out ∧
    rho_path out = rec_path options ∧ rho_mode out = rec_mode options ∧
    (∀ c, rec_content options = Some c → rho_content out = Some c) ∧
    (rec_content options = None →
     rho_content out = if default false (rec_omitContent options) then Some omit else None) ∧
    ¬ (is_Some (rho_urlGlob out) ∧ is_Some (rho_urlRegexSource out)) ∧
    (is_Some (rho_urlRegexSource out) ↔ is_Some (rho_urlRegexFlags out)) ∧
    filter_of out = rec_urlFilter options.
Proof.
  split; [done |].
  eexists. split; [reflexivity |]. unfold filter_of. simpl.
  split; [done |]. split; [done |].
  split; [by intros c -> |]. split; [by intros -> |].
  destruct (rec_urlFilter options) as [[glob|source flags]|]; simpl;
    repeat split; try done; try (by intros [[] ?]); try (by intros [? []]);
    by intros [].
Qed.

Section PrepareFacts.

Variable validateHeaders : list (string * string) → option Error.
Variable headersObjectToArray : list (string * string) → list (string * string).
Variable readState : string → Result JSValue.

Local Abbreviation prepare :=
  (prepareBrowserContextParams validateHeaders headersObjectToArray readState).

(** X14: [prepareBrowserContextParams] succeeds exactly when a video size
    comes with a videos path, the extra headers are valid and the storage
    state, when it is a file, can be read.  It fails with the first of
    these that does not hold, in this order: the video size error, the
    error of the header validation, the error of reading the file, its
    message prefixed with the path. *)
Theorem prepareBrowserContextParams_checks_in_order options :
  match prepare options with
  | Ok _ => video_ok options ∧ headers_ok validateHeaders options ∧
            state_ok readState options
  | Throw e =>
      (¬ video_ok options ∧ e = videoSize_error) ∨
      (video_ok options ∧
       ∃ headers, opt_extraHTTPHeaders options = Some headers ∧
                  validateHeaders headers = Some e) ∨
      (video_ok options ∧ headers_ok validateHeaders options ∧
       ∃ path message,
         opt_storageState options = Some (StateFile path) ∧
         readState path = Throw message ∧
         e = "Error reading storage state from " +:+ path +:+ ":" +:+ newline +:+ message)
  end.
Proof.
  unfold prepareBrowserContextParams, video_ok, headers_ok, state_ok, prepareStorageState.
  destruct (opt_videoSize options) as [size|] eqn:Esize; simpl.
  - destruct (given (opt_videosPath options)) eqn:Epath; simpl.
    2: { left. split; [| done]. intros H. by specialize (H (mk_is_Some _ _ eq_refl)). }
    destruct (opt_extraHTTPHeaders options) as [headers|] eqn:Eh; simpl.
    + destruct (validateHeaders headers) as [e|] eqn:Ev.
      { right. left. split; [done |]. by exists headers. }
      destruct (opt_storageState options) as [[path|state]|] eqn:Es.
      * destruct (readState path) as [state|message] eqn:Er.
        -- destruct (opt_recordVideo options), (opt_videosPath options) as [dir|];
             try destruct (truthy dir); repeat split; try done;
             try (by intros ? [= <-]); intros ? [= <-]; eauto.
        -- right. right. split; [done |]. split; [by intros ? [= <-] |]. eauto.
      * destruct (opt_recordVideo options), (opt_videosPath options) as [dir|];
          try destruct (truthy dir); repeat split; try done; by intros ? [= <-].
      * destruct (opt_recordVideo options), (opt_videosPath options) as [dir|];
          try destruct (truthy dir); repeat split; try done; by intros ? [= <-].
    + destruct (opt_storageState options) as [[path|state]|] eqn:Es.
      * destruct (readState path) as [state|message] eqn:Er.
        -- destruct (opt_recordVideo options), (opt_videosPath options) as [dir|];
             try destruct (truthy dir); repeat split; try done; intros ? [= <-]; eauto.
        -- right. right. split; [done |]. split; [done |]. eauto.
      * destruct (opt_recordVideo options), (opt_videosPath options) as [dir|];
          try destruct (truthy dir); repeat split; done.
      * destruct (opt_recordVideo options), (opt_videosPath options) as [dir|];
          try destruct (truthy dir); repeat split; done.
  - destruct (opt_extraHTTPHeaders options) as [headers|] eqn:Eh; simpl.
    + destruct (validateHeaders headers) as [e|] eqn:Ev.
      { right. left. split; [by intros [? [=]] |]. by exists headers. }
      destruct (opt_storageState options) as [[path|state]|] eqn:Es.
      * destruct (readState path) as [state|message] eqn:Er.
        -- destruct (opt_recordVideo options), (opt_videosPath options) as [dir|];
             try destruct (truthy dir); repeat split; try done;
             try (by intros [? [=]]); try (by intros ? [= <-]); intros ? [= <-]; eauto.
        -- right. right. split; [by intros [? [=]] |].
           split; [by intros ? [= <-] |]. eauto.
      * destruct (opt_recordVideo options), (opt_videosPath options) as [dir|];
          try destruct (truthy dir); repeat split; try done;
          try (by intros [? [=]]); by intros ? [= <-].
      * destruct (opt_recordVideo options), (opt_videosPath options) as [dir|];
          try destruct (truthy dir); repeat split; try done;
          try (by intros [? [=]]); by intros ? [= <-].
    + destruct (opt_storageState options) as [[path|state]|] eqn:Es.
      * destruct (readState path) as [state|message] eqn:Er.
        -- destruct (opt_recordVideo options), (opt_videosPath options) as [dir|];
             try destruct (truthy dir); repeat split; try done;
             try (by intros [? [=]]); intros ? [= <-]; eauto.
        -- right. right. split; [by intros [? [=]] |]. split; [done |]. eauto.
      * destruct (opt_recordVideo options), (opt_videosPath options) as [dir|];
          try destruct (truthy dir); repeat split; try done; by intros [? [=]].
      * destruct (opt_recordVideo options), (opt_videosPath options) as [dir|];
          try destruct (truthy dir); repeat split; try done; by intros [? [=]].
Qed.

Lemma prepare_success options params :
  prepare options = Ok params →
  par_options params = options ∧
  par_viewport params = match opt_viewport options with Value v => Some v | _ => None end ∧
  par_noDefaultViewport params = match opt_viewport options with Null => true | _ => false end ∧
  par_recordVideo params =
    match opt_recordVideo options, opt_videosPath options with
    | None, Some dir =>
        if truthy dir then Some {| rv_dir := dir; rv_size := opt_videoSize options |} else None
    | recordVideo, _ => recordVideo
    end ∧
  par_colorScheme params = no_override (opt_colorScheme options) ∧
  (is_Some (opt_videoSize options) → given (opt_videosPath options) = true).
Proof.
  unfold prepareBrowserContextParams.
  destruct (bool_decide (is_Some (opt_videoSize options))
            && negb (given (opt_videosPath options))) eqn:Ev; [done |].
  destruct (from_option validateHeaders None (opt_extraHTTPHeaders options)); [done |].
  destruct (prepareStorageState readState options) as [state|e]; [| done].
  assert (is_Some (opt_videoSize options) → given (opt_videosPath options) = true) as Hv.
  { intros Hs. rewrite bool_decide_true in Ev by done.
    by destruct (given (opt_videosPath options)). }
  destruct (opt_recordVideo options), (opt_videosPath options) as [dir|];
    try destruct (truthy dir); by intros [= <-].
Qed.

(** X15: in the parameters that [prepareBrowserContextParams] returns,
    [noDefaultViewport] is set exactly when the viewport option is [null],
    and then no viewport is sent; a [recordVideo] option is passed on
    untouched, and without one the videos path (with the video size, if
    any) takes its place; so whenever a video size was given, video
    recording is on. *)
Theorem prepareBrowserContextParams_viewport_and_video options params :
  prepare options = Ok params →
  (par_noDefaultViewport params = true ↔ opt_viewport options = Null) ∧
  (par_noDefaultViewport params = true → par_viewport params = None) ∧
  (∀ size, opt_viewport options = Value size → par_viewport params = Some size) ∧
  (∀ recordVideo, opt_recordVideo options = Some recordVideo →
                  par_recordVideo params = Some recordVideo) ∧
  (opt_recordVideo options = None →
   ∀ dir, opt_videosPath options = Some dir → truthy dir = true →
          par_recordVideo params =
            Some {| rv_dir := dir; rv_size := opt_videoSize options |}) ∧
  (is_Some (opt_videoSize options) → is_Some (par_recordVideo params)).
Proof.
  intros (_ & Hvp & Hnd & Hrv & _ & Hvideo)%prepare_success.
  rewrite Hvp, Hnd, Hrv.
  split; [by destruct (opt_viewport options) |].
  split; [by destruct (opt_viewport options) |].
  split; [by intros size -> |].
  split; [by intros recordVideo -> |].
  split; [by intros -> dir -> -> |].
  intros Hsize. specialize (Hvideo Hsize).
  destruct (opt_recordVideo options); [done |].
  destruct (opt_videosPath options) as [dir|]; [| done].
  simpl in Hvideo. by rewrite Hvideo.
Qed.

End PrepareFacts.

(** ** Properties of [cookies] *)

Lemma truthy_spec (s : string) : truthy s = true ↔ s ≠ "".
Proof.
  unfold truthy. destruct (String.eqb_spec s ""); simpl; split; congruence.
Qed.

(** X16: the [urls] that [cookies] sends are always an array: the array it
    was given, the one-element array of a non-empty string, and the empty
    array both for no argument and for the empty string. *)
Theorem cookies_urls_is_an_array urls :
  cookies_urls urls =
  UrlsArray match urls with
            | UrlsUndefined => []
            | UrlsString url => if decide (url = "") then [] else [url]
            | UrlsArray urls => urls
            end.
Proof.
  unfold cookies_urls. destruct urls as [|url|urls]; simpl; try done.
  destruct (decide (url = "")) as [->|Hne]; [done |].
  apply truthy_spec in Hne. rewrite Hne. simpl. by rewrite Hne.
Qed.

(** ** Properties of the command line *)

Lemma startsWith_app (prefix s : string) : startsWith (prefix +:+ s) prefix = true.
Proof.
  unfold startsWith. induction prefix as [|a prefix IH]; simpl; [by destruct s |].
  by destruct (Ascii.ascii_dec a a).
Qed.

Section CliFacts.

Variable existsSync : string → bool.
Variable resolve : string → string.

Lemma goto_url_has_scheme u :
  has_scheme (Cli.goto_url existsSync resolve u) = true.
Proof.
  unfold Cli.goto_url, has_scheme. destruct (existsSync u).
  { by rewrite (startsWith_app "file://"), orb_true_r. }
  destruct (startsWith u "http") eqn:E1; cbn [negb andb]; [by rewrite E1 |].
  destruct (startsWith u "file://") eqn:E2; cbn [negb andb];
    [by rewrite E1, E2 |].
  destruct (startsWith u "about:") eqn:E3; cbn [negb andb];
    [by rewrite E1, E2, E3 |].
  destruct (startsWith u "data:") eqn:E4; cbn [negb andb];
    [by rewrite E1, E2, E3, E4 |].
  change ("http://" +:+ u) with ("http" +:+ ("://" +:+ u)).
  by rewrite startsWith_app.
Qed.

(** X17: told to skip, [openPage] does nothing.  Otherwise it opens a
    page, and navigates it exactly when a URL is given that is not the
    empty string.  The URL it navigates to is "file://" followed by the
    resolved path when the given URL names an existing file; otherwise the
    given URL itself when that starts with "http", "file://", "about:" or
    "data:", and "http://" followed by the given URL when it does not.  So
    every URL it navigates to starts with one of the four. *)
Theorem openPage_navigates_to_a_url_with_scheme skip url :
  Cli.openPage existsSync resolve true url = [] ∧
  (given url = false → Cli.openPage existsSync resolve false url = [Cli.NewPage]) ∧
  (∀ u, url = Some u → u ≠ "" →
     ∃ target,
       Cli.openPage existsSync resolve false url = [Cli.NewPage; Cli.Goto target] ∧
       (existsSync u = true → target = "file://" +:+ resolve u) ∧
       (existsSync u = false → has_scheme u = true → target = u) ∧
       (existsSync u = false → has_scheme u = false → target = "http://" +:+ u)) ∧
  (∀ target, Cli.Goto target ∈ Cli.openPage existsSync resolve skip url →
             has_scheme target = true).
Proof.
  split; [done |]. split; [| split].
  - intros Hg. unfold Cli.openPage. by rewrite Hg.
  - intros u -> Hu%truthy_spec. exists (Cli.goto_url existsSync resolve u).
    split; [unfold Cli.openPage; simpl; by rewrite Hu |].
    unfold Cli.goto_url, has_scheme.
    destruct (existsSync u); [by repeat split |].
    split; [done |].
    destruct (startsWith u "http"), (startsWith u "file://"),
      (startsWith u "about:"), (startsWith u "data:"); by split.
  - intros target. unfold Cli.openPage. destruct skip; [by intros ?%elem_of_nil |].
    destruct (given url); simpl.
    2: { rewrite elem_of_cons, elem_of_nil. by intros [[=] | []]. }
    rewrite !elem_of_cons, elem_of_nil. intros [[=] | [[= ->] | []]].
    apply goto_url_has_scheme.
Qed.

End CliFacts.

Section CloseBrowserFacts.

Variable reply : list Call → Call → option Error.
Variable isSafeCloseError : Error → bool.
Variable cli_reply : list Cli.CliCall → Cli.CliCall → option Error.
Variable options : Cli.Options.

Local Abbreviation closeBrowser :=
  (Cli.closeBrowser reply isSafeCloseError cli_reply options).
Local Abbreviation closeBrowser_times :=
  (Cli.closeBrowser_times reply isSafeCloseError cli_reply options).

Lemma closeBrowser_body_flag st :
  Cli.closingBrowser
    (Cli.closeBrowser_body reply isSafeCloseError cli_reply options st).2 =
  Cli.closingBrowser st.
Proof.
  unfold Cli.closeBrowser_body, Cli.cli_bind, Cli.cli_when, Cli.cli_catch,
    Cli.cli_call, Cli.context_close.
  repeat (match goal with
          | |- context [given ?o] => destruct (given o)
          | |- context [cli_reply ?h ?c] => destruct (cli_reply h c)
          | |- context [close reply isSafeCloseError ?s] =>
              destruct (close reply isSafeCloseError s) as [[[]|?] ?]
          end; simpl); done.
Qed.

Lemma closeBrowser_flag st : Cli.closingBrowser (closeBrowser st).2 = true.
Proof.
  unfold Cli.closeBrowser. destruct (Cli.closingBrowser st) eqn:E; [done |].
  by rewrite closeBrowser_body_flag.
Qed.

Lemma closeBrowser_times_closing n : ∀ st,
  Cli.closingBrowser st = true → closeBrowser_times n st = st.
Proof.
  induction n as [|n IH]; intros st Hst; simpl; [done |].
  unfold Cli.closeBrowser at 1. rewrite Hst. simpl. by apply IH.
Qed.

(** X18: [closeBrowser] goes through its teardown at most once: after a
    call its flag is set, a call that finds the flag set returns at once
    and changes nothing, and so after one call any number of further calls
    leaves everything as the first left it. *)
Theorem closeBrowser_runs_once st :
  Cli.closingBrowser (closeBrowser st).2 = true ∧
  (Cli.closingBrowser st = true → closeBrowser st = (Ok tt, st)) ∧
  ∀ n, closeBrowser_times (S n) st = (closeBrowser st).2.
Proof.
  split; [apply closeBrowser_flag |]. split.
  - intros Hst. unfold Cli.closeBrowser. by rewrite Hst.
  - intros n. simpl. apply closeBrowser_times_closing, closeBrowser_flag.
Qed.

(** X19: when saving the trace fails, the first [closeBrowser] throws
    before it has closed anything, and since its flag stays set no later
    call makes up for it: the context and the browser are never closed by
    [closeBrowser]. *)
Theorem closeBrowser_failed_trace_never_closes path e st :
  Cli.closingBrowser st = false →
  Cli.saveTrace options = Some path → truthy path = true →
  cli_reply (Cli.cli_sent st) (Cli.TracingStop path) = Some e →
  (closeBrowser st).1 = Throw e ∧
  ∀ n, Cli.cli_sent (closeBrowser_times (S n) st) =
         Cli.cli_sent st ++ [Cli.TracingStop path] ∧
       Cli.context (closeBrowser_times (S n) st) = Cli.context st.
Proof.
  intros Hst Htrace Hpath Hrej.
  assert (closeBrowser st =
          (Throw e, {| Cli.closingBrowser := true; Cli.context := Cli.context st;
                       Cli.cli_sent := Cli.cli_sent st ++ [Cli.TracingStop path] |}))
    as Hfirst.
  { unfold Cli.closeBrowser. rewrite Hst.
    unfold Cli.closeBrowser_body, Cli.cli_bind, Cli.cli_when, Cli.cli_call.
    rewrite Htrace. simpl. rewrite Hpath. simpl. by rewrite Hrej. }
  split; [by rewrite Hfirst |]. intros n.
  simpl. rewrite closeBrowser_times_closing by apply closeBrowser_flag.
  by rewrite Hfirst.
Qed.

Lemma closeBrowser_after_trace st :
  Cli.BrowserClose ∉ Cli.cli_sent st →
  Cli.BrowserClose ∈ Cli.cli_sent
    (Cli.cli_bind
       (Cli.cli_when (given (Cli.saveStorage options))
          (Cli.cli_catch (Cli.cli_call cli_reply
             (Cli.StorageState (default "" (Cli.saveStorage options))))))
       (λ _, Cli.cli_bind
               (Cli.cli_when (given (Cli.saveHar options))
                  (Cli.context_close reply isSafeCloseError))
               (λ _, Cli.cli_call cli_reply Cli.BrowserClose)) st).2 ↔
  (given (Cli.saveHar options) = true →
   (close reply isSafeCloseError (Cli.context st)).1 = Ok tt).
Proof.
  intros Hnot.
  unfold Cli.cli_bind, Cli.cli_when, Cli.cli_catch, Cli.cli_call, Cli.context_close.
  destruct (given (Cli.saveStorage options));
    [destruct (cli_reply (Cli.cli_sent st) _) |]; simpl;
    (destruct (given (Cli.saveHar options)); simpl;
     [destruct (close reply isSafeCloseError (Cli.context st)) as [[[]|e2] s2] |]; simpl;
     try match goal with
         | |- context [cli_reply ?h Cli.BrowserClose] =>
             destruct (cli_reply h Cli.BrowserClose)
         end; simpl;
     rewrite ?elem_of_app, ?elem_of_cons, ?elem_of_nil;
     (split; [intros H; intuition congruence
             | intros H; solve [auto | by specialize (H eq_refl)]])).
Qed.

(** X20: [closeBrowser] asks the browser to close exactly when stopping the
    trace, if one is saved, is fulfilled and closing the context, if a HAR
    is saved, does not throw.  A failure to save the storage state is
    dropped and does not stand in the way. *)
Theorem closeBrowser_closes_browser_unless_trace_or_context_fails st :
  Cli.closingBrowser st = false →
  Cli.BrowserClose ∉ Cli.cli_sent st →
  Cli.BrowserClose ∈ Cli.cli_sent (closeBrowser st).2 ↔
  (∀ path, Cli.saveTrace options = Some path → truthy path = true →
           cli_reply (Cli.cli_sent st) (Cli.TracingStop path) = None) ∧
  (given (Cli.saveHar options) = true →
   (close reply isSafeCloseError (Cli.context st)).1 = Ok tt).
Proof.
  intros Hst Hnot. unfold Cli.closeBrowser. rewrite Hst.
  unfold Cli.closeBrowser_body.
  unfold Cli.cli_bind at 1. unfold Cli.cli_when at 1.
  destruct (Cli.saveTrace options) as [path|] eqn:Etrace; simpl.
  2: { rewrite closeBrowser_after_trace by done. simpl. split; [| by intros [_ H]].
       intros H. split; [done | exact H]. }
  destruct (truthy path) eqn:Epath.
  2: { rewrite closeBrowser_after_trace by done. simpl. split; [| by intros [_ H]].
       intros H. split; [| exact H]. intros path' [= <-]. congruence. }
  unfold Cli.cli_call at 1. simpl.
  destruct (cli_reply (Cli.cli_sent st) (Cli.TracingStop path)) as [e|] eqn:Erej.
  - simpl. rewrite elem_of_app, elem_of_cons, elem_of_nil. split.
    + intros [H | [[=] | []]]. done.
    + intros [H _]. specialize (H path eq_refl Epath). congruence.
  - rewrite closeBrowser_after_trace.
    2: { simpl. rewrite elem_of_app, elem_of_cons, elem_of_nil.
         intros [H | [[=] | []]]. done. }
    simpl. split; [| by intros [_ H]].
    intros H. split; [| exact H]. by intros path' [= <-].
Qed.

End CloseBrowserFacts.

(** ** The theorems at concrete inputs *)

Import Examples.

(** [splice(indexOf(x), 1)] on an array that does not hold [x] removes its
    last element. *)
Example splice_of_absent_handler :
  Js.splice1 (Js.indexOf Nat.eqb 9 [1; 2; 3]) [1; 2; 3] = [1; 2] ∧
  Js.splice1 (Js.indexOf Nat.eqb 2 [1; 2; 3]) [1; 2; 3] = [1; 3].
Proof. by vm_compute. Qed.

Example endsWith_zip :
  Js.endsWith "trace.zip" ".zip" = true ∧ Js.endsWith "trace.har" ".zip" = false ∧
  Js.endsWith "zip" ".zip" = false.
Proof. by vm_compute. Qed.

Example two_routes_chain :
  (rh_handler <$> _routes two_routes) = [1; 2] ∧ interception two_routes = true ∧
  sent two_routes = [SetNetworkInterceptionEnabled true].
Proof. by vm_compute. Qed.

(** C4, refuted as stated: the server rejects the request to enable
    interception that the first [route] makes.  The call throws, but its
    entry stays in the chain; the second [route] finds a chain of two and
    asks nothing.  The chain now holds two routes and interception is
    off. *)
Lemma rejected_enable_leaves_routes_without_interception :
  (route MoreExamples.reject_enable (UrlString "/api") 1 None
     (new_context true None None)).1 = Throw "interception failed" ∧
  (route MoreExamples.reject_enable (UrlString "/img") 2 None
     (route MoreExamples.reject_enable (UrlString "/api") 1 None
        (new_context true None None)).2).1 = Ok tt ∧
  (rh_handler <$>
     _routes (route MoreExamples.reject_enable (UrlString "/img") 2 None
                (route MoreExamples.reject_enable (UrlString "/api") 1 None
                   (new_context true None None)).2).2) = [2; 1] ∧
  interception (route MoreExamples.reject_enable (UrlString "/img") 2 None
                  (route MoreExamples.reject_enable (UrlString "/api") 1 None
                     (new_context true None None)).2).2 = false ∧
  ¬ (interception (route MoreExamples.reject_enable (UrlString "/img") 2 None
                     (route MoreExamples.reject_enable (UrlString "/api") 1 None
                        (new_context true None None)).2).2 = true ↔
     _routes (route MoreExamples.reject_enable (UrlString "/img") 2 None
                (route MoreExamples.reject_enable (UrlString "/api") 1 None
                   (new_context true None None)).2).2 ≠ []).
Proof.
  split; [by vm_compute |]. split; [by vm_compute |]. split; [by vm_compute |].
  split; [by vm_compute |].
  intros [_ H]. vm_compute in H. by specialize (H ltac:(discriminate)).
Qed.

Lemma route_unroute_keep_lifo_and_interception_witness :
  run_calls accept_all chain_calls (new_context true None None) = (Ok tt, two_routes) ∧
  lifo (_routes two_routes) ∧ (interception two_routes = true ↔ _routes two_routes ≠ []).
Proof.
  destruct (route_unroute_keep_lifo_and_interception accept_all
              true None None chain_calls (λ _ _, eq_refl)) as (s & Hrun & H1 & H2 & _).
  assert (s = two_routes) as -> by (unfold two_routes; by rewrite Hrun).
  split; [exact Hrun |]. split; assumption.
Defined.

(** The dispatch of a request for "/api" on [two_routes]: handler 1 is on
    its only use, so it has left the live chain when it runs; it falls
    through and the route of handler 2 is removed meanwhile, yet handler 2,
    next in the snapshot, is invoked. *)
Example two_routes_dispatch :
  (λ ev, (rh_handler (he_handler ev), he_use ev, rh_handler <$> he_live ev,
          he_result ev)) <$>
    handle_log (_onRoute exact_url accept_all busy_handlers api_request two_routes).2 =
  [(1, 1, [2], Ok false); (2, 1, [3], Ok true)].
Proof. by vm_compute. Qed.

Lemma onRoute_iterates_snapshot_witness :
  chain_wf two_routes ∧
  ∃ invoked,
    handle_log (_onRoute exact_url accept_all busy_handlers api_request two_routes).2 =
      handle_log two_routes ++ invoked ∧
    (he_handler <$> invoked) `prefix_of`
      (filter (λ rh, matches exact_url rh (route_url api_request) = true)
              (_routes two_routes)) ∧
    Forall (λ ev, expires_on (he_handler ev) (he_use ev) = true →
                  he_handler ev ∉ he_live ev) invoked.
Proof.
  assert (chain_wf two_routes) as Hwf by (split; vm_compute; repeat constructor).
  split; [exact Hwf |].
  destruct (onRoute_iterates_snapshot exact_url accept_all busy_handlers
              api_request two_routes Hwf) as (invoked & H1 & H2 & _ & H4 & _).
  exists invoked. split; [exact H1 |]. split; [exact H2 |].
  eapply Forall_impl; [exact H4 |]. intros ev Hev Hexp. exact (proj2 (Hev Hexp)).
Defined.

(** The greeting of the spec: the registered function is called with
    "world" and its value is the response; "ghost" is ignored. *)
Example greet_world :
  let s := (exposeBinding accept_all "greet" greet false (new_context true None None)).2 in
  sent (_onBinding accept_all {| bc_object := 9; bc_name := "greet";
                                 bc_args := [VString "world"] |} s).2 =
    [ExposeBinding "greet" false; InvokeBinding 1 [VString "world"];
     BindingResolve 9 (VString "hello world")] ∧
  _onBinding accept_all {| bc_object := 9; bc_name := "ghost";
                           bc_args := [VString "world"] |} s = (Ok tt, s).
Proof. by vm_compute. Qed.

Lemma exposeBinding_overwrites_witness :
  _bindings (exposeBinding accept_all "greet" greet_again false
               (exposeBinding accept_all "greet" greet false
                  (new_context true None None)).2).2 !! "greet" = Some greet_again.
Proof.
  destruct (exposeBinding_overwrites accept_all "greet" greet_again false
              (exposeBinding accept_all "greet" greet false
                 (new_context true None None)).2) as [_ H].
  exact (proj1 (proj2 (H eq_refl))).
Defined.

Lemma accepted_by_calls reply s cs :
  (∀ h c, c ∈ cs → reply h c = None) → accepted reply s cs.
Proof.
  intros H done c rest ->. apply H. apply elem_of_app. right. apply elem_of_cons. by left.
Qed.

Lemma accept_all_accepted s cs : accepted accept_all s cs.
Proof. by intros done c rest _. Qed.

(** C1, refuted as stated: two [close()] calls in flight on a context with
    one recorder, against a server that rejects what follows its close.
    Both callers end normally, but the pre-close hook has run twice, the
    recording has been exported twice and the close was requested twice. *)
Lemma close_twice_runs_teardown_twice :
  Forall finished
    (close_concurrently closing_server closed_is_safe 2 (round_robin 7) attach_recorder).1 ∧
  times_called OnWillCloseContext
    (sent (close_concurrently closing_server closed_is_safe 2 (round_robin 7)
             attach_recorder).2) = 2 ∧
  times_called (HarExport "")
    (sent (close_concurrently closing_server closed_is_safe 2 (round_robin 7)
             attach_recorder).2) = 2 ∧
  times_called ChannelClose
    (sent (close_concurrently closing_server closed_is_safe 2 (round_robin 7)
             attach_recorder).2) = 2 ∧
  times_called OnWillCloseContext
    (sent (close_concurrently closing_server closed_is_safe 2 (round_robin 7)
             attach_recorder).2) ≠ 1.
Proof.
  split; [vm_compute; by repeat constructor |]. by vm_compute.
Qed.

Lemma concurrent_close_runs_teardown_per_caller_witness :
  Forall finished
    (close_concurrently accept_all closed_is_safe 2 (round_robin 7) attach_recorder).1 ∧
  ∀ c, times_called c
         (sent (close_concurrently accept_all closed_is_safe 2 (round_robin 7)
                  attach_recorder).2) =
       times_called c (sent attach_recorder) + 2 * times_called c (teardown attach_recorder).
Proof.
  assert (Forall finished
    (close_concurrently accept_all closed_is_safe 2 (round_robin 7) attach_recorder).1)
    as Hfin by (vm_compute; by repeat constructor).
  split; [exact Hfin |].
  destruct (concurrent_close_runs_teardown_per_caller accept_all closed_is_safe
              2 (round_robin 7) attach_recorder) as (_ & _ & _ & H).
  exact (proj2 (H (λ _ _, eq_refl) Hfin)).
Defined.

(** C2, refuted as stated: of three recordings the export of the second
    fails.  [close] throws that error; the third recording is never
    exported (nor is the context asked to close). *)
Lemma failed_export_blocks_later_sessions :
  close (reject_export "har1") closed_is_safe three_recorders =
    (Throw "har export failed",
     (close (reject_export "har1") closed_is_safe three_recorders).2) ∧
  sent (close (reject_export "har1") closed_is_safe three_recorders).2 =
    [OnWillCloseContext; HarExport ""; ArtifactSaveAs "" "a.har"; ArtifactDelete "";
     HarExport "har1"] ∧
  HarExport "har2" ∉ sent (close (reject_export "har1") closed_is_safe three_recorders).2.
Proof.
  split; [by vm_compute |]. split; [by vm_compute |].
  vm_compute. intros H. repeat (apply elem_of_cons in H as [[=] | H]).
  by apply elem_of_nil in H.
Qed.

Lemma close_stops_at_failed_export_witness :
  (close (reject_export "har1") closed_is_safe three_recorders).1 = Throw "har export failed" ∧
  sent (close (reject_export "har1") closed_is_safe three_recorders).2 =
    sent three_recorders ++
    drained three_recorders [("", {| har_path := "a.har"; har_content := Some embed |})] ++
    [HarExport "har1"].
Proof.
  apply (close_stops_at_failed_export (reject_export "har1") closed_is_safe
           three_recorders
           [("", {| har_path := "a.har"; har_content := Some embed |})]
           "har1" {| har_path := "b.har"; har_content := Some attach |}
           [("har2", {| har_path := "c.zip"; har_content := None |})]
           "har export failed" eq_refl).
  - apply accepted_by_calls. intros h c Hc. vm_compute in Hc.
    repeat (apply elem_of_cons in Hc as [-> | Hc]); try reflexivity.
    by apply elem_of_nil in Hc.
  - reflexivity.
Defined.

(** C9, refuted as stated: the content mode is "attach", the server
    exports a compressed archive, and the path ends in ".har": after
    [close] the destination holds the unzipped HAR, not an archive. *)
Lemma attach_to_har_path_is_unzipped :
  isCompressed {| har_path := "trace.har"; har_content := Some attach |} = true ∧
  sent (close accept_all closed_is_safe attach_recorder).2 =
    [OnWillCloseContext; HarExport ""; ArtifactSaveAs "" "trace.har.tmp";
     HarUnzip "trace.har.tmp" "trace.har"; ArtifactDelete "";
     ChannelClose; AwaitClosedPromise] ∧
  (∀ keeps_zipFile,
     files_after (λ _, ZipArchive) keeps_zipFile
       (sent (close accept_all closed_is_safe attach_recorder).2) ∅ !! "trace.har" =
       Some PlainHar) ∧
  (∀ keeps_zipFile,
     files_after (λ _, ZipArchive) keeps_zipFile
       (sent (close accept_all closed_is_safe attach_recorder).2) ∅ !! "trace.har" ≠
       Some ZipArchive).
Proof.
  split; [by vm_compute |]. split; [by vm_compute |].
  split; intros []; by vm_compute.
Qed.

Lemma close_saves_har_by_extension_witness :
  files_after (λ _, ZipArchive) false
    (drained attach_recorder [] ++
     har_steps ("", {| har_path := "trace.har"; har_content := Some attach |})) ∅
    !! "trace.har" = Some PlainHar.
Proof.
  destruct (close_saves_har_by_extension accept_all closed_is_safe (λ _, ZipArchive)
              false attach_recorder [] ""
              {| har_path := "trace.har"; har_content := Some attach |} [] ∅
              eq_refl (accept_all_accepted _ _)) as (_ & _ & H & _).
  exact H.
Defined.



Example timeout_message_text :
  timeout_message "page" 1000 =
  "Timeout 1000ms exceeded while waiting for event " +:+ Js.dquote +:+ "page" +:+ Js.dquote.
Proof. by vm_compute. Qed.

(** C6, refuted as stated: [waitForEvent] registers the abort listener
    before the match listener, not after it. *)
Lemma abort_is_registered_before_match :
  Waiter.registered_at Waiter.is_abort (waitForEvent_waiter "page" 30000 None) = Some 1 ∧
  Waiter.registered_at Waiter.is_match (waitForEvent_waiter "page" 30000 None) = Some 2 ∧
  ¬ (∃ i j,
       Waiter.registered_at Waiter.is_match (waitForEvent_waiter "page" 30000 None) = Some i ∧
       Waiter.registered_at Waiter.is_abort (waitForEvent_waiter "page" 30000 None) = Some j ∧
       i < j).
Proof.
  split; [by vm_compute |]. split; [by vm_compute |].
  intros (i & j & Hi & Hj & Hlt). vm_compute in Hi, Hj.
  injection Hi as <-. injection Hj as <-. lia.
Qed.

Lemma waitForEvent_close_aborts_unless_matched_first_witness :
  waitForEvent "page" 30000 None
    ([Waiter.Elapsed 5] ++ Waiter.Emitted "close" (VObject 0) :: []) =
    Some (Waiter.Rejected (Waiter.AbortedError "Context closed")) ∧
  waitForEvent "page" 30000 None
    ([Waiter.Elapsed 5] ++ Waiter.Emitted "page" (VObject 3) ::
       Waiter.Emitted "close" (VObject 0) :: []) =
    Some (Waiter.Resolved (VObject 3)).
Proof.
  destruct (waitForEvent_close_aborts_unless_matched_first "page" 30000 None
              ltac:(discriminate)) as (Habort & Hmatch & _).
  split.
  - apply Habort. reflexivity.
  - apply Hmatch; reflexivity.
Defined.

(** A wait for the close event itself resolves with the context. *)
Example wait_for_close_resolves :
  waitForEvent "close" 30000 None [Waiter.Elapsed 5; Waiter.Emitted "close" (VObject 0)] =
  Some (Waiter.Resolved (VObject 0)).
Proof. by vm_compute. Qed.

(** *** More of the context *)

Import MoreExamples.

Example expiring_is_first_of_two_routes :
  head (_routes two_routes) = Some expiring ∧
  (rh_handler <$> _routes removed_first) = [2].
Proof. by vm_compute. Qed.

Lemma unroute_without_routes_disables_each_time_witness :
  sent (run_calls accept_all unroute_twice (new_context true None None)).2 =
    [SetNetworkInterceptionEnabled false; SetNetworkInterceptionEnabled false].
Proof.
  assert (run_calls accept_all unroute_twice (new_context true None None) =
          (Ok tt, (run_calls accept_all unroute_twice (new_context true None None)).2))
    as Hrun by (by vm_compute).
  assert (Forall is_unroute unroute_twice) as Hun by (repeat constructor).
  exact (proj2 (unroute_without_routes_disables_each_time accept_all unroute_twice
                  (new_context true None None) _ eq_refl Hun Hrun)).
Defined.

Lemma rejected_enable_is_not_retried_witness :
  (route reject_enable (UrlString "/api") 1 None (new_context true None None)).1 =
    Throw "interception failed" ∧
  sent (route reject_enable (UrlString "/img") 2 None
          (route reject_enable (UrlString "/api") 1 None
             (new_context true None None)).2).2 =
    [SetNetworkInterceptionEnabled true] ∧
  interception (route reject_enable (UrlString "/img") 2 None
                  (route reject_enable (UrlString "/api") 1 None
                     (new_context true None None)).2).2 = false.
Proof.
  assert (reject_enable (sent (new_context true None None))
            (SetNetworkInterceptionEnabled true) = Some "interception failed")
    as Hrej by (by vm_compute).
  destruct (rejected_enable_is_not_retried reject_enable
              (UrlString "/api") 1 None (UrlString "/img") 2 None
              "interception failed" (new_context true None None) eq_refl Hrej)
    as (H1 & _ & _ & _ & _ & H6 & H7).
  split; [exact H1 |]. split; [exact H6 | exact H7].
Defined.

Lemma onRoute_keeps_interception_in_sync_witness :
  interception (_onRoute exact_url accept_all busy_handlers api_request two_routes).2 = true ↔
  _routes (_onRoute exact_url accept_all busy_handlers api_request two_routes).2 ≠ [].
Proof.
  assert (∀ rh route s, calls_only (busy_handlers rh route s).1) as Hcalls.
  { intros rh route s. unfold busy_handlers, calls_only.
    destruct (rh_handler rh) as [|[|n]]; repeat constructor. }
  assert (chain_inv two_routes) as Hinv.
  { split; [vm_compute; repeat constructor |].
    split; [vm_compute; repeat constructor |].
    split; [by vm_compute | by intros _; vm_compute]. }
  assert ((_onRoute exact_url accept_all busy_handlers api_request two_routes).1 = Ok tt)
    as Hok by (by vm_compute).
  exact (proj2 (onRoute_keeps_interception_in_sync exact_url accept_all busy_handlers
                  api_request two_routes (λ _ _, eq_refl) Hcalls Hinv Hok)).
Defined.

Lemma expiring_handler_already_removed_drops_last_witness :
  ∃ ev later,
    handle_log (dispatch exact_url accept_all busy_handlers api_request [expiring]
                  removed_first).2 = handle_log removed_first ++ ev :: later ∧
    he_handler ev = expiring ∧
    he_live ev = removelast (_routes removed_first).
Proof.
  assert (chain_wf removed_first) as Hwf by (split; vm_compute; repeat constructor).
  assert (matches exact_url expiring (route_url api_request) = true) as Hm
    by (by vm_compute).
  assert (willExpire expiring removed_first = true) as Hexp by (by vm_compute).
  assert (rh_object expiring ∉ rh_object <$> _routes removed_first) as Hout.
  { vm_compute. intros H. apply elem_of_cons in H as [[=] | H].
    by apply elem_of_nil in H. }
  exact (expiring_handler_already_removed_drops_last exact_url accept_all busy_handlers
           api_request expiring [] removed_first Hwf Hm Hexp Hout).
Defined.

(** The last use of the only route: the request to disable interception is
    made and rejected, and the dispatch goes on to continue the request. *)
Example one_shot_dispatch :
  sent (_onRoute exact_url reject_disable idle_handlers api_request one_shot).2 =
    sent one_shot ++ [SetNetworkInterceptionEnabled false; InnerContinue 7] ∧
  _routes (_onRoute exact_url reject_disable idle_handlers api_request one_shot).2 = [].
Proof. by vm_compute. Qed.

Lemma onRoute_fails_only_through_handler_or_continue_witness :
  (_onRoute exact_url reject_disable idle_handlers api_request one_shot).1 = Ok tt.
Proof.
  assert (∀ rh route s e, (idle_handlers rh route s).2 ≠ Throw e) as Hquiet
    by (by intros rh route s e).
  assert (∀ h, reject_disable h (InnerContinue (route_object api_request)) = None)
    as Hcont by (by intros h; vm_compute).
  exact (onRoute_fails_only_through_handler_or_continue exact_url reject_disable
           idle_handlers api_request one_shot Hquiet Hcont).
Defined.

Lemma rejected_exposeBinding_keeps_table_witness :
  (exposeBinding reject_repeated "greet" greet_again false greeting).1 =
    Throw "already registered" ∧
  _bindings (exposeBinding reject_repeated "greet" greet_again false greeting).2 =
    _bindings greeting.
Proof.
  assert (reject_repeated (sent greeting) (ExposeBinding "greet" false) =
          Some "already registered") as Hrej by (by vm_compute).
  destruct (rejected_exposeBinding_keeps_table reject_repeated "greet" greet_again false
              "already registered" greeting Hrej) as (H1 & H2 & _).
  split; [exact H1 | exact H2].
Defined.

Example greeting_is_registered : _bindings greeting !! "greet" = Some greet.
Proof. by vm_compute. Qed.

Lemma prepareBrowserContextParams_viewport_and_video_witness :
  par_viewport video_params = None ∧ is_Some (par_recordVideo video_params).
Proof.
  assert (prepareBrowserContextParams any_headers id no_file video_options =
          Ok video_params) as Hok by (by vm_compute).
  destruct (prepareBrowserContextParams_viewport_and_video any_headers id no_file
              video_options video_params Hok) as (H1 & H2 & _ & _ & _ & H6).
  split; [apply H2, H1; reflexivity | apply H6; by eexists].
Defined.

Lemma closeBrowser_failed_trace_never_closes_witness :
  (Cli.closeBrowser accept_all closed_is_safe reject_trace save_all launched).1 =
    Throw "tracing failed" ∧
  Cli.cli_sent (Cli.closeBrowser_times accept_all closed_is_safe reject_trace save_all
                  3 launched) = [Cli.TracingStop "trace.zip"] ∧
  Cli.context (Cli.closeBrowser_times accept_all closed_is_safe reject_trace save_all
                 3 launched) = attach_recorder.
Proof.
  destruct (closeBrowser_failed_trace_never_closes accept_all closed_is_safe reject_trace
              save_all "trace.zip" "tracing failed" launched
              eq_refl eq_refl eq_refl eq_refl) as [H1 H2].
  split; [exact H1 |]. exact (H2 2).
Defined.

(** With all three options and a healthy server, [closeBrowser] stops the
    trace, saves the storage state, closes the context (which saves its
    HAR) and closes the browser; a second call does nothing. *)
Example closeBrowser_saves_then_closes :
  Cli.cli_sent (Cli.closeBrowser_times accept_all closed_is_safe (λ _ _, None) save_all
                  2 launched) =
    [Cli.TracingStop "trace.zip"; Cli.StorageState "state.json"; Cli.BrowserClose] ∧
  sent (Cli.context (Cli.closeBrowser_times accept_all closed_is_safe (λ _ _, None)
                       save_all 2 launched)) =
    teardown attach_recorder.
Proof. by vm_compute. Qed.

Lemma closeBrowser_closes_browser_unless_trace_or_context_fails_witness :
  Cli.BrowserClose ∈
    Cli.cli_sent (Cli.closeBrowser accept_all closed_is_safe reject_storage save_all
                    launched).2.
Proof.
  assert (Cli.BrowserClose ∉ Cli.cli_sent launched) as Hnot by apply not_elem_of_nil.
  apply (proj2 (closeBrowser_closes_browser_unless_trace_or_context_fails
                  accept_all closed_is_safe reject_storage save_all launched
                  eq_refl Hnot)).
  split; [by intros path _ _ | by intros _; vm_compute].
Defined.

Lemma setBrowserType_recording_is_drained_at_close_witness :
  sent (close accept_all closed_is_safe
          (_setBrowserType true (Some trace_har) (new_context false None None))).2 =
    [OnWillCloseContext; HarExport ""; ArtifactSaveAs "" "trace.har.tmp";
     HarUnzip "trace.har.tmp" "trace.har"; ArtifactDelete "";
     ChannelClose; AwaitClosedPromise].
Proof.
  exact (setBrowserType_recording_is_drained_at_close accept_all closed_is_safe
           true (Some trace_har) (new_context false None None) eq_refl
           (accept_all_accepted _ _)).
Defined.

(** The context built by the constructor and [_setBrowserType] is the one
    the examples start from. *)
Example setBrowserType_on_new_context :
  _setBrowserType true (Some trace_har) (new_context false None None) = attach_recorder.
Proof. by vm_compute. Qed.
